(** * PyLempelZiv: a shallow embedding of [lempel-ziv-77.py]

    The development follows the source file top to bottom: the Python
    built-ins the program relies on (slices, [range], [max], [bin],
    [int.to_bytes], file reads), the part of the [bitarray] package it
    uses, [matching_characters], the [LempelZiv] class with its match
    finder, token writers, encoder loop and decoder loop, and then the
    properties of these definitions. *)

From Stdlib Require Import Strings.Byte Strings.String.
From Stdlib Require Import List ZArith Lia Bool Arith.
Import ListNotations.

Local Open Scope Z_scope.

(** ** Python values and exceptions *)

(** A [bytes] object is a sequence of integers in [range(256)]. *)
Definition bytes := list byte.

(** The integer value of one element of a [bytes] object. *)
Definition byte_val (b : byte) : Z := Z.of_N (Byte.to_N b).

(** The exceptions this program can raise. *)
Inductive exn : Set :=
| IndexError
| OverflowError
| UnicodeDecodeError.

(** A computation either returns or raises. *)
Inductive outcome (A : Type) : Type :=
| Ok (a : A)
| Raise (e : exn).

Arguments Ok {A} a.
Arguments Raise {A} e.

Definition bind {A B : Type} (m : outcome A) (k : A -> outcome B) : outcome B :=
  match m with
  | Ok a => k a
  | Raise e => Raise e
  end.

Notation "x <- m ;; k" := (bind m (fun x => k))
  (at level 61, m at next level, right associativity).

Module Py.

(** Normalisation of one slice bound against a sequence of length [n]:
    a negative bound counts from the end, and every bound is clipped
    to [0, n]. *)
Definition clamp_index (n i : Z) : Z :=
  if i <? 0 then Z.max 0 (i + n) else Z.min i n.

(** [l[start:stop]], with [None] for an omitted bound. *)
Definition slice {A : Type} (l : list A) (start stop : option Z) : list A :=
  let n := Z.of_nat (length l) in
  let s := match start with None => 0 | Some i => clamp_index n i end in
  let e := match stop with None => n | Some i => clamp_index n i end in
  firstn (Z.to_nat (e - s)) (skipn (Z.to_nat s) l).

(** [range(n)]; empty when [n <= 0]. *)
Definition range (n : Z) : list nat := seq 0 (Z.to_nat n).

(** [enumerate(l)]. *)
Definition enumerate {A : Type} (l : list A) : list (nat * A) :=
  combine (seq 0 (length l)) l.

(** [max(l, key = key)]: the first element whose key is maximal;
    [None] stands for the [ValueError] raised on an empty iterable. *)
Definition max_by {A : Type} (key : A -> nat) (l : list A) : option A :=
  match l with
  | [] => None
  | x :: t =>
      Some (fold_left (fun best y => if (key best <? key y)%nat then y else best) t x)
  end.

(** The binary digits of a positive number, most significant first. *)
Fixpoint pos_digits (p : positive) (acc : list bool) : list bool :=
  match p with
  | xH => true :: acc
  | xO q => pos_digits q (false :: acc)
  | xI q => pos_digits q (true :: acc)
  end.

(** [[True if bit == '1' else False for bit in bin(n)[2:]]].
    [bin(0)] is ['0b0']; for a negative number [bin] gives ['-0b...'],
    so dropping two characters leaves the letter ['b'] in front of
    the digits, and it maps to [False]. *)
Definition bin_values (n : Z) : list bool :=
  match n with
  | Z0 => [false]
  | Zpos p => pos_digits p []
  | Zneg p => false :: pos_digits p []
  end.

(** [(n).to_bytes(1, byteorder = 'big')]. *)
Definition to_bytes1 (n : Z) : outcome byte :=
  if (0 <=? n) && (n <=? 255) then
    match Byte.of_N (Z.to_N n) with
    | Some b => Ok b
    | None => Raise OverflowError
    end
  else Raise OverflowError.

(** [file.read(n)] on a binary file whose unread content is [f]:
    the bytes read and the content left; [n = -1] reads everything.
    This is what a read that returns gives.  The source's [read] does
    not return for every size: it raises [ValueError] for [n < -1] and
    [OverflowError] for an [n] beyond the range of a C [ssize_t], and it
    allocates [n] bytes before reading, which fails for sizes of the
    order of the machine's memory.  Those exceptions are not
    represented here (for a negative [n] other than [-1] the definition
    reads everything as well), so every theorem below that says how a
    run ends keeps the configured sizes within [-1] and
    [0 .. max_read_size]; the sizes a run then passes to [read] are
    [-1] or lie between 0 and the larger of the configured size and the
    length of the input. *)
Definition read (n : Z) (f : bytes) : bytes * bytes :=
  if n <? 0 then (f, [])
  else (firstn (Z.to_nat n) f, skipn (Z.to_nat n) f).

(** [int.from_bytes(bs, 'big')]. *)
Definition int_from_bytes (bs : bytes) : Z :=
  fold_left (fun acc b => acc * 256 + byte_val b) bs 0.

(** [del l[start:stop]]. *)
Definition del_slice {A : Type} (l : list A) (start stop : Z) : list A :=
  let n := Z.of_nat (length l) in
  let s := clamp_index n start in
  let e := clamp_index n stop in
  firstn (Z.to_nat s) l ++ skipn (Z.to_nat (Z.max s e)) l.

Definition in_range (b : byte) (lo hi : Z) : bool :=
  (lo <=? byte_val b) && (byte_val b <=? hi).

(** Whether [s.decode('utf-8')] succeeds (strict error handling):
    well-formed UTF-8 byte sequences, with overlong forms, surrogates
    and code points above U+10FFFF rejected. *)
Fixpoint utf8_valid (s : bytes) : bool :=
  match s with
  | [] => true
  | b0 :: t0 =>
      let c := byte_val b0 in
      if c <=? 127 then utf8_valid t0
      else if (194 <=? c) && (c <=? 223) then
        match t0 with
        | b1 :: t1 => in_range b1 128 191 && utf8_valid t1
        | _ => false
        end
      else if (224 <=? c) && (c <=? 239) then
        match t0 with
        | b1 :: b2 :: t2 =>
            in_range b1 (if c =? 224 then 160 else 128)
                        (if c =? 237 then 159 else 191)
            && in_range b2 128 191 && utf8_valid t2
        | _ => false
        end
      else if (240 <=? c) && (c <=? 244) then
        match t0 with
        | b1 :: b2 :: b3 :: t3 =>
            in_range b1 (if c =? 240 then 144 else 128)
                        (if c =? 244 then 143 else 191)
            && in_range b2 128 191 && in_range b3 128 191 && utf8_valid t3
        | _ => false
        end
      else false
  end.

End Py.

(** ** The part of [bitarray] the program uses (big-endian bit order) *)

Module Bitarray.

Definition bitarray := list bool.

(** The eight bits of a byte, most significant first. *)
Definition byte_bits (b : byte) : bitarray :=
  let '(b0, (b1, (b2, (b3, (b4, (b5, (b6, b7))))))) := Byte.to_bits b in
  [b7; b6; b5; b4; b3; b2; b1; b0].

Definition bits_byte (b7 b6 b5 b4 b3 b2 b1 b0 : bool) : byte :=
  Byte.of_bits (b0, (b1, (b2, (b3, (b4, (b5, (b6, b7))))))).

(** [bitarr.frombytes(bs)] appends the bits of [bs]; this is the
    appended part. *)
Definition frombytes (bs : bytes) : bitarray := flat_map byte_bits bs.

(** [bitarr.tobytes()]: eight bits per byte, the last byte padded
    with zero bits. *)
Fixpoint tobytes (l : bitarray) : bytes :=
  match l with
  | [] => []
  | b7 :: b6 :: b5 :: b4 :: b3 :: b2 :: b1 :: b0 :: rest =>
      bits_byte b7 b6 b5 b4 b3 b2 b1 b0 :: tobytes rest
  | [b7; b6; b5; b4; b3; b2; b1] => [bits_byte b7 b6 b5 b4 b3 b2 b1 false]
  | [b7; b6; b5; b4; b3; b2] => [bits_byte b7 b6 b5 b4 b3 b2 false false]
  | [b7; b6; b5; b4; b3] => [bits_byte b7 b6 b5 b4 b3 false false false]
  | [b7; b6; b5; b4] => [bits_byte b7 b6 b5 b4 false false false false]
  | [b7; b6; b5] => [bits_byte b7 b6 b5 false false false false false]
  | [b7; b6] => [bits_byte b7 b6 false false false false false false]
  | [b7] => [bits_byte b7 false false false false false false false]
  end.

(** [bitarr.fill()]: zero bits up to the next multiple of eight. *)
Definition fill (l : bitarray) : bitarray :=
  l ++ repeat false ((8 - length l mod 8) mod 8)%nat.

End Bitarray.

Import Bitarray.

(** ** [matching_characters] *)

(** The recursion of the source, one nested call per matching byte.
    This is the value the source returns when it returns: the
    interpreter raises [RecursionError] once calls nest deeper than its
    recursion limit (1000 frames unless changed), which happens at
    about a thousand matching bytes and is not represented here, so
    every theorem below that says what a call returns keeps the matches
    within [max_match_depth] bytes. *)
Fixpoint matching_characters (s1 s2 : bytes) : nat :=
  match s1, s2 with
  | c1 :: t1, c2 :: t2 =>
      if Byte.eqb c1 c2 then (1 + matching_characters t1 t2)%nat else 0%nat
  | _, _ => 0%nat
  end.

(** ** The [LempelZiv] class *)

Module LempelZiv.

Definition max_window_size : Z := 255.

Record t : Set := {
  lookahead_size : Z;
  window_size : Z;
  max_copy_length : Z;
  pointer_bits : Z;
  literal_bits : Z
}.

(** [__init__(self, lookahead_size = 20, window_size = 100)]. *)
Definition init (lookahead_size window_size : Z) : t :=
  {| lookahead_size := lookahead_size;
     window_size := Z.max max_window_size window_size;
     max_copy_length := Z.min 15 lookahead_size;
     pointer_bits := 1 + 4 + 8;
     literal_bits := 1 + 8 |}.

(** [LempelZiv()], as the command line entry point builds it. *)
Definition default : t := init 20 100.

Definition longest_substring (self : t) (window string : bytes) : nat * nat :=
  let window_range := Py.range (window_size self) in
  let matches :=
    map (fun '(i, j) =>
           (i, matching_characters (Py.slice window (Some (Z.of_nat j)) None) string))
        (Py.enumerate window_range) in
  match Py.max_by snd matches with
  | Some m => m
  | None => (0%nat, 0%nat)
  end.

Definition make_literal (bitarr : bitarray) (char : Z) : outcome bitarray :=
  let bitarr := bitarr ++ [false] in
  b <- Py.to_bytes1 char ;;
  Ok (bitarr ++ frombytes [b]).

(** The inner function [lengther] of [make_pointer]. *)
Definition lengther (bitarr : bitarray) (copy_length : Z) : bitarray :=
  let values := Py.bin_values copy_length in
  let pad := 4 - Z.of_nat (length values) in
  (bitarr ++ repeat false (Z.to_nat pad)) ++ values.

Definition make_pointer (bitarr : bitarray) (copy_distance copy_length : Z)
  : outcome bitarray :=
  let bitarr := bitarr ++ [true] in
  b <- Py.to_bytes1 copy_distance ;;
  let bitarr := bitarr ++ frombytes [b] in
  Ok (lengther bitarr copy_length).

Fixpoint literal_map (bitarr : bitarray) (bytestring : bytes) : outcome bitarray :=
  match bytestring with
  | [] => Ok bitarr
  | byte :: rest =>
      bitarr <- make_literal bitarr (byte_val byte) ;;
      literal_map bitarr rest
  end.

(** *** [encode] *)

(** The local variables of [encode] that live across iterations of its
    [while True] loop; [file] is the unread rest of the input file. *)
Module Loop.
Record state : Set := {
  file : bytes;
  bitarr : bitarray;
  window_buffer : bytes;
  lookahead_buffer : bytes;
  lookahead_size : Z
}.
End Loop.

(** One pass through the loop body either falls through to the next
    iteration or reaches [break], after [outPath] has been written. *)
Inductive step : Set :=
| Continue (st : Loop.state)
| Break (written : bytes).

(** "reset lookahead size and refill lookahead window": the new
    [lookahead_buffer], [lookahead_size] and unread [file]. *)
Definition refill (self : t) (st : Loop.state) : bytes * Z * bytes :=
  let '(out, file) :=
    Py.read (lookahead_size self - Loop.lookahead_size st) (Loop.file st) in
  match out with
  | [] => (Loop.lookahead_buffer st, Loop.lookahead_size st, file)
  | _ :: _ => (Loop.lookahead_buffer st ++ out, lookahead_size self, file)
  end.

(** "do the encoding": the new [bitarr] and the final [copy_length]. *)
Definition do_encoding (self : t) (bitarr : bitarray)
    (window_buffer lookahead_buffer : bytes) : outcome (bitarray * Z) :=
  let window_size := window_size self in
  let '(copy_distance, copy_length) :=
    longest_substring self window_buffer lookahead_buffer in
  let copy_distance := window_size - Z.of_nat copy_distance in
  let copy_length := Z.min (Z.of_nat copy_length) (max_copy_length self) in
  if 1 <? copy_length then
    bitarr <- make_pointer bitarr copy_distance copy_length ;;
    Ok (bitarr, copy_length)
  else
    let copy_length := 1 in
    match lookahead_buffer with
    | [] => Raise IndexError
    | c :: _ =>
        bitarr <- make_literal bitarr (byte_val c) ;;
        Ok (bitarr, copy_length)
    end.

(** "update the window buffer", "update the lookahead buffer" and
    "check stop condition". *)
Definition update_and_stop (file : bytes) (bitarr : bitarray)
    (window_buffer lookahead_buffer : bytes) (lookahead_size copy_length : Z)
  : step :=
  let window_buffer :=
    Py.slice window_buffer (Some copy_length) None
    ++ Py.slice lookahead_buffer None (Some copy_length) in
  let lookahead_buffer := Py.slice lookahead_buffer (Some copy_length) None in
  let lookahead_size := lookahead_size - copy_length in
  match lookahead_buffer with
  | [] => Break (tobytes (fill bitarr))
  | _ :: _ =>
      Continue {| Loop.file := file;
                  Loop.bitarr := bitarr;
                  Loop.window_buffer := window_buffer;
                  Loop.lookahead_buffer := lookahead_buffer;
                  Loop.lookahead_size := lookahead_size |}
  end.

(** The body of the [while True] loop. *)
Definition encode_body (self : t) (st : Loop.state) : outcome step :=
  let '(lookahead_buffer, lookahead_size, file) := refill self st in
  emitted <-
    do_encoding self (Loop.bitarr st) (Loop.window_buffer st) lookahead_buffer ;;
  let '(bitarr, copy_length) := emitted in
  Ok (update_and_stop file bitarr (Loop.window_buffer st)
                      lookahead_buffer lookahead_size copy_length).

(** The [while True] loop.  [None] means the iteration budget ran
    out. *)
Fixpoint encode_loop (fuel : nat) (self : t) (st : Loop.state)
  : option (outcome bytes) :=
  match fuel with
  | O => None
  | S fuel =>
      match encode_body self st with
      | Raise e => Some (Raise e)
      | Ok (Break written) => Some (Ok written)
      | Ok (Continue st) => encode_loop fuel self st
      end
  end.

(** [encode(self, inPath, outPath)]: [input] is the content of
    [inPath]; [Ok written] is a run that wrote [written] to [outPath],
    [Raise e] a run ended by [e] with [outPath] never opened. *)
Definition encode (self : t) (input : bytes) : option (outcome bytes) :=
  let '(window_buffer, file) := Py.read (window_size self) input in
  match literal_map [] window_buffer with
  | Raise e => Some (Raise e)
  | Ok bitarr =>
      encode_loop (S (length input)) self
        {| Loop.file := file;
           Loop.bitarr := bitarr;
           Loop.window_buffer := window_buffer;
           Loop.lookahead_buffer := [];
           Loop.lookahead_size := 0 |}
  end.

(** *** [decode] *)

(** The inner function [length_decode] of [decode]. *)
Definition length_decode (copy_length : bitarray) : Z :=
  fold_left (fun total (c : bool) =>
               let total := total * 2 in
               if c then total + 1 else total)
            copy_length 0.

(** The bytes a pointer makes the decoder append to [outBuffer]. *)
Definition copy_string (outBuffer : bytes) (copy_distance copy_length : Z) : bytes :=
  if copy_distance =? copy_length then
    Py.slice outBuffer (Some (- copy_distance)) None
  else
    Py.slice outBuffer (Some (- copy_distance))
                       (Some (- copy_distance + copy_length)).

(** The [while len(bitarr) >= 9] loop.  [None] means the iteration
    budget ran out. *)
Fixpoint decode_loop (fuel : nat) (bitarr : bitarray) (outBuffer : bytes)
  : option bytes :=
  if 9 <=? Z.of_nat (length bitarr) then
    match fuel with
    | O => None
    | S fuel =>
        let flag := hd false bitarr in
        if negb flag then
          let byte := tobytes (Py.slice bitarr (Some 1) (Some 9)) in
          decode_loop fuel (Py.del_slice bitarr 0 9) (outBuffer ++ byte)
        else
          let copy_distance :=
            Py.int_from_bytes (tobytes (Py.slice bitarr (Some 1) (Some 9))) in
          let copy_length := length_decode (Py.slice bitarr (Some 9) (Some 13)) in
          decode_loop fuel (Py.del_slice bitarr 0 13)
                      (outBuffer ++ copy_string outBuffer copy_distance copy_length)
    end
  else Some outBuffer.

(** [decode(self, inFile, outFile)]: [input] is the content of
    [inFile]; [Ok text] is a run that wrote the text whose UTF-8 form
    is [text] to [outFile], [Raise UnicodeDecodeError] a run in which
    [outBuffer.decode('utf-8')] failed and nothing was written to the
    file just opened.  The progress messages are left out. *)
Definition decode (self : t) (input : bytes) : option (outcome bytes) :=
  let bitarr := frombytes input in
  match decode_loop (length bitarr) bitarr [] with
  | None => None
  | Some outBuffer =>
      Some (if Py.utf8_valid outBuffer then Ok outBuffer
            else Raise UnicodeDecodeError)
  end.

End LempelZiv.

Import LempelZiv.


(** * Vocabulary of the properties *)

(** ** Matches *)

(** [n] leading bytes of [s1] and [s2] are equal. *)
Definition common_prefix (n : nat) (s1 s2 : bytes) : Prop :=
  (n <= length s1)%nat /\ (n <= length s2)%nat /\ firstn n s1 = firstn n s2.

(** [n] is the longest-common-prefix count of [s1] and [s2]. *)
Definition longest_common_prefix (n : nat) (s1 s2 : bytes) : Prop :=
  common_prefix n s1 s2 /\ forall m, common_prefix m s1 s2 -> (m <= n)%nat.

(** The match length the source computes at offset [j] of [window]. *)
Definition match_count (window string : bytes) (j : nat) : nat :=
  matching_characters (skipn j window) string.

(** What the running maximum of [max] knows after the offsets below
    [hi]: it is the entry of some offset [i], no offset below [hi]
    does better, and every offset before [i] does strictly worse. *)
Definition best_below (window string : bytes) (hi : nat) (r : nat * nat) : Prop :=
  exists i, r = (i, match_count window string i) /\ (i < hi)%nat
            /\ (forall j, (j < hi)%nat ->
                          (match_count window string j
                           <= match_count window string i)%nat)
            /\ (forall j, (j < i)%nat ->
                          (match_count window string j
                           < match_count window string i)%nat).

(** ** Bits *)

(** The [width] low bits of [n], most significant first. *)
Definition be_bits (width : nat) (n : Z) : bitarray :=
  map (fun i => Z.testbit n (Z.of_nat i)) (rev (seq 0 width)).

(** ** Runs of the decoder *)

(** [decode_loop] started on [bitarr] with [outBuffer] returns [r],
    whatever budget of at least [len(bitarr)] iterations it is given. *)
Definition decodes_to (bitarr : bitarray) (outBuffer r : bytes) : Prop :=
  forall fuel, (length bitarr <= fuel)%nat ->
               decode_loop fuel bitarr outBuffer = Some r.

(** The bit array [bitarr] decodes to [processed]: a decoder that has
    consumed [bitarr] goes on with [processed] as its output. *)
Definition decoded (bitarr : bitarray) (processed : bytes) : Prop :=
  forall tail r,
    decodes_to tail processed r -> decodes_to (bitarr ++ tail) [] r.

(** ** Runs of the encoder *)

(** The bytes the refill reads from the file. *)
Definition refill_out (self : t) (st : Loop.state) : bytes :=
  fst (Py.read (lookahead_size self - Loop.lookahead_size st) (Loop.file st)).

(** The last [window_size] bytes of the input processed so far. *)
Definition last_window (self : t) (processed : bytes) : bytes :=
  skipn (length processed - Z.to_nat (window_size self)) processed.

(** The loop variables as [encode] sets them up before the loop. *)
Definition initial (window_buffer file : bytes) (bitarr : bitarray) : Loop.state :=
  {| Loop.file := file;
     Loop.bitarr := bitarr;
     Loop.window_buffer := window_buffer;
     Loop.lookahead_buffer := [];
     Loop.lookahead_size := 0 |}.

(** What holds of the loop variables at the top of every iteration:
    the input is what has been processed, then the lookahead, then
    the unread rest of the file; the window is the last [window_size]
    processed bytes; unless nothing is left to encode, at least
    [window_size] bytes have been processed; and the bits written so far
    decode to the processed bytes. *)
Definition Inv (self : t) (input : bytes) (st : Loop.state) : Prop :=
  exists processed,
    input = processed ++ Loop.lookahead_buffer st ++ Loop.file st
    /\ Loop.window_buffer st = last_window self processed
    /\ ((Z.to_nat (window_size self) <= length processed)%nat
        \/ (Loop.lookahead_buffer st = [] /\ Loop.file st = []))
    /\ decoded (Loop.bitarr st) processed.

(** The states of the loop variables at the top of the iterations of
    a run of [encode] on [input]. *)
Inductive reachable (self : t) (input : bytes) : Loop.state -> Prop :=
| reachable_initial :
    forall window_buffer file bitarr,
      Py.read (window_size self) input = (window_buffer, file) ->
      literal_map [] window_buffer = Ok bitarr ->
      reachable self input (initial window_buffer file bitarr)
| reachable_next :
    forall st st',
      reachable self input st ->
      encode_body self st = Ok (Continue st') ->
      reachable self input st'.

(** Something is left to encode, and while the file has unread
    bytes the variable [lookahead_size] is the size of the
    lookahead buffer. *)
Definition tidy (st : Loop.state) : Prop :=
  Loop.lookahead_buffer st ++ Loop.file st <> []
  /\ (Loop.file st <> [] ->
      Loop.lookahead_size st = Z.of_nat (length (Loop.lookahead_buffer st))).

(** ** Example inputs *)

(** An input of 300 bytes, all ["a"], and the loop variables of [encode]
    on it before the first iteration. *)
Definition run_of_a : bytes := repeat "a"%byte 300.

Definition run_of_a_initial : Loop.state :=
  initial (firstn 255 run_of_a) (skipn 255 run_of_a)
          (flat_map (fun c => false :: byte_bits c) (firstn 255 run_of_a)).

(** An input whose first two bytes come back right after the window of
    a 300-byte configuration is full. *)
Definition far_match_input : bytes :=
  list_byte_of_string "ab" ++ repeat "c"%byte 298 ++ list_byte_of_string "abd".


(** ** Streams built by hand *)

(** The bits of a run of Literals, one per byte. *)
Definition literals (bytestring : bytes) : bitarray :=
  flat_map (fun c => false :: byte_bits c) bytestring.

(** A Pointer whose distance and length fields are both zero: the flag
    bit 1 and twelve zero bits. *)
Definition zero_pointer : bitarray := true :: repeat false 12.

(** The lookahead has bytes, or the loop is about to run for the first
    time on a file that has some. *)
Definition fed (st : Loop.state) : Prop :=
  Loop.lookahead_buffer st <> []
  \/ (Loop.lookahead_size st = 0 /\ Loop.file st <> []).

(** 300 bytes that are not text: the byte 255 never occurs in UTF-8. *)
Definition run_of_ff : bytes := repeat "255"%byte 300.

(** ** The interpreter's limits *)

(** The longest match for which the theorems say what
    [matching_characters] returns: the nested calls, one more than the
    matching bytes, then stay well inside the interpreter's default
    recursion limit of 1000 frames, with room for the callers. *)
Definition max_match_depth : nat := 500.

(** The largest size for which the theorems say what [file.read]
    returns: one mebibyte, a buffer any machine can allocate. *)
Definition max_read_size : Z := 2 ^ 20.


(** * Properties *)

(** ** Slices with bounds of known sign *)

Section Slices.
Context {A : Type}.
Implicit Types l : list A.

Lemma slice_from l (j : Z) :
  0 <= j -> Py.slice l (Some j) None = skipn (Z.to_nat j) l.
Proof.
  intros Hj. unfold Py.slice, Py.clamp_index.
  destruct (j <? 0) eqn:E; [apply Z.ltb_lt in E; lia|].
  destruct (Z_le_gt_dec j (Z.of_nat (length l))) as [Hle|Hgt].
  - rewrite Z.min_l by lia.
    apply firstn_all2. rewrite length_skipn. lia.
  - rewrite Z.min_r by lia. rewrite Z.sub_diag. simpl.
    symmetry. apply skipn_all2. lia.
Qed.

Lemma slice_to l (j : Z) :
  0 <= j -> Py.slice l None (Some j) = firstn (Z.to_nat j) l.
Proof.
  intros Hj. unfold Py.slice, Py.clamp_index.
  destruct (j <? 0) eqn:E; [apply Z.ltb_lt in E; lia|].
  rewrite Z.sub_0_r. simpl.
  destruct (Z_le_gt_dec j (Z.of_nat (length l))) as [Hle|Hgt].
  - now rewrite Z.min_l by lia.
  - rewrite Z.min_r by lia. rewrite Nat2Z.id.
    rewrite firstn_all. symmetry. apply firstn_all2. lia.
Qed.

Lemma slice_between l (i j : Z) :
  0 <= i <= j ->
  Py.slice l (Some i) (Some j)
  = firstn (Z.to_nat (j - i)) (skipn (Z.to_nat i) l).
Proof.
  intros Hij. unfold Py.slice, Py.clamp_index.
  destruct (i <? 0) eqn:Ei; [apply Z.ltb_lt in Ei; lia|].
  destruct (j <? 0) eqn:Ej; [apply Z.ltb_lt in Ej; lia|].
  destruct (Z_le_gt_dec i (Z.of_nat (length l))) as [Hi|Hi].
  - rewrite (Z.min_l i) by lia.
    destruct (Z_le_gt_dec j (Z.of_nat (length l))) as [Hj|Hj].
    + now rewrite Z.min_l by lia.
    + rewrite Z.min_r by lia.
      rewrite !firstn_all2; auto; rewrite length_skipn; lia.
  - rewrite !skipn_all2 by lia. now rewrite !firstn_nil.
Qed.

(** A start counted from the end and a stop that is still negative:
    the plain copy of [k] elements starting [d] elements back. *)
Lemma slice_back l (d k : Z) :
  0 <= k < d -> d <= Z.of_nat (length l) ->
  Py.slice l (Some (- d)) (Some (- d + k))
  = firstn (Z.to_nat k) (skipn (length l - Z.to_nat d) l).
Proof.
  intros Hk Hd. unfold Py.slice, Py.clamp_index.
  destruct (- d <? 0) eqn:E1; [|apply Z.ltb_ge in E1; lia].
  destruct (- d + k <? 0) eqn:E2; [|apply Z.ltb_ge in E2; lia].
  rewrite !Z.max_r by lia.
  replace (- d + k + Z.of_nat (length l) - (- d + Z.of_nat (length l))) with k by lia.
  f_equal. f_equal. lia.
Qed.

(** A start counted from the end and no stop: the last [d] elements. *)
Lemma slice_last l (d : Z) :
  0 < d <= Z.of_nat (length l) ->
  Py.slice l (Some (- d)) None = skipn (length l - Z.to_nat d) l.
Proof.
  intros Hd. unfold Py.slice, Py.clamp_index.
  destruct (- d <? 0) eqn:E1; [|apply Z.ltb_ge in E1; lia].
  rewrite Z.max_r by lia.
  replace (Z.to_nat (- d + Z.of_nat (length l))) with (length l - Z.to_nat d)%nat by lia.
  apply firstn_all2. rewrite length_skipn. lia.
Qed.

Lemma del_prefix l (k : Z) :
  0 <= k -> Py.del_slice l 0 k = skipn (Z.to_nat k) l.
Proof.
  intros Hk. unfold Py.del_slice, Py.clamp_index.
  destruct (k <? 0) eqn:E; [apply Z.ltb_lt in E; lia|].
  simpl (0 <? 0). cbv iota.
  rewrite (Z.min_l 0) by lia. simpl.
  rewrite Z.max_r by lia.
  destruct (Z_le_gt_dec k (Z.of_nat (length l))) as [Hle|Hgt].
  - now rewrite Z.min_l by lia.
  - rewrite Z.min_r by lia. rewrite !skipn_all2; auto; lia.
Qed.

End Slices.

(** ** Bytes and bits *)

Lemma byte_bits_length (c : byte) : length (byte_bits c) = 8%nat.
Proof.
  unfold byte_bits.
  destruct (Byte.to_bits c) as (b0 & b1 & b2 & b3 & b4 & b5 & b6 & b7).
  reflexivity.
Qed.

Lemma tobytes_byte_bits (c : byte) (rest : bitarray) :
  tobytes (byte_bits c ++ rest) = c :: tobytes rest.
Proof.
  unfold byte_bits.
  destruct (Byte.to_bits c) as (b0 & b1 & b2 & b3 & b4 & b5 & b6 & b7) eqn:E.
  cbn [app tobytes]. f_equal.
  unfold bits_byte. rewrite <- E. apply Byte.of_bits_to_bits.
Qed.

Lemma tobytes_one (c : byte) : tobytes (byte_bits c) = [c].
Proof.
  rewrite <- (app_nil_r (byte_bits c)). now rewrite tobytes_byte_bits.
Qed.

Lemma byte_bits_bits_byte (b7 b6 b5 b4 b3 b2 b1 b0 : bool) :
  byte_bits (bits_byte b7 b6 b5 b4 b3 b2 b1 b0) = [b7; b6; b5; b4; b3; b2; b1; b0].
Proof.
  unfold byte_bits, bits_byte. now rewrite Byte.to_bits_of_bits.
Qed.

(** Reading back what [tobytes] wrote, for a bit count that is a
    multiple of eight. *)
Lemma frombytes_tobytes (k : nat) :
  forall l : bitarray, length l = (8 * k)%nat -> frombytes (tobytes l) = l.
Proof.
  induction k as [|k IH]; intros l Hl.
  - destruct l; [reflexivity|discriminate].
  - do 8 (destruct l as [|? l]; [simpl in Hl; lia|]).
    cbn [tobytes frombytes flat_map].
    rewrite byte_bits_bits_byte. cbn [app]. do 8 f_equal.
    apply IH. simpl in Hl. lia.
Qed.

Lemma fill_length (l : bitarray) :
  exists k, length (fill l) = (8 * k)%nat.
Proof.
  unfold fill. rewrite length_app, repeat_length.
  exists ((length l + (8 - length l mod 8) mod 8) / 8)%nat.
  pose proof (Nat.div_mod_eq (length l) 8).
  pose proof (Nat.mod_upper_bound (length l) 8 ltac:(lia)).
  pose proof (Nat.div_mod_eq (length l + (8 - length l mod 8) mod 8) 8).
  assert ((length l + (8 - length l mod 8) mod 8) mod 8 = 0)%nat; [|lia].
  destruct (Nat.eq_dec (length l mod 8) 0) as [E|E].
  - rewrite E. simpl ((8 - 0) mod 8)%nat. now rewrite Nat.add_0_r.
  - rewrite (Nat.mod_small (8 - length l mod 8) 8) by lia.
    replace (length l + (8 - length l mod 8))%nat
      with (8 + 8 * (length l / 8))%nat by lia.
    replace (8 + 8 * (length l / 8))%nat with ((1 + length l / 8) * 8)%nat by lia.
    apply Nat.Div0.mod_mul.
Qed.

Lemma fill_padding (l : bitarray) :
  exists pad, fill l = l ++ pad /\ (length pad < 8)%nat.
Proof.
  eexists. split; [reflexivity|].
  rewrite repeat_length. apply Nat.mod_upper_bound. lia.
Qed.

Lemma frombytes_tobytes_fill (l : bitarray) :
  frombytes (tobytes (fill l)) = fill l.
Proof.
  destruct (fill_length l) as [k Hk]. now apply (frombytes_tobytes k).
Qed.

Lemma frombytes_one (c : byte) : frombytes [c] = byte_bits c.
Proof. unfold frombytes. simpl. apply app_nil_r. Qed.

Lemma to_bytes1_byte_val (c : byte) : Py.to_bytes1 (byte_val c) = Ok c.
Proof.
  unfold Py.to_bytes1, byte_val.
  pose proof (Byte.to_N_bounded c) as Hb.
  replace ((0 <=? Z.of_N (to_N c)) && (Z.of_N (to_N c) <=? 255)) with true.
  - now rewrite N2Z.id, Byte.of_to_N.
  - symmetry. apply andb_true_iff. split; apply Z.leb_le; lia.
Qed.

Lemma to_bytes1_Ok (n : Z) (c : byte) :
  Py.to_bytes1 n = Ok c -> byte_val c = n /\ 0 <= n <= 255.
Proof.
  unfold Py.to_bytes1, byte_val.
  destruct ((0 <=? n) && (n <=? 255)) eqn:E; [|discriminate].
  apply andb_true_iff in E. destruct E as [E1 E2].
  apply Z.leb_le in E1, E2.
  destruct (of_N (Z.to_N n)) eqn:E; [|discriminate].
  intros [= <-]. apply Byte.to_of_N in E. rewrite E. lia.
Qed.

Lemma to_bytes1_in_range (n : Z) :
  0 <= n <= 255 -> exists c, Py.to_bytes1 n = Ok c /\ byte_val c = n.
Proof.
  intros Hn. unfold Py.to_bytes1.
  replace ((0 <=? n) && (n <=? 255)) with true
    by (symmetry; apply andb_true_iff; split; apply Z.leb_le; lia).
  destruct (of_N (Z.to_N n)) eqn:E.
  - eexists. split; [reflexivity|].
    apply Byte.to_of_N in E. unfold byte_val. rewrite E. lia.
  - apply Byte.of_N_None_iff in E. lia.
Qed.

Lemma to_bytes1_overflow (n : Z) :
  255 < n -> Py.to_bytes1 n = Raise OverflowError.
Proof.
  intros Hn. unfold Py.to_bytes1.
  replace (n <=? 255) with false by (symmetry; apply Z.leb_gt; lia).
  now rewrite andb_false_r.
Qed.

Lemma int_from_bytes_one (c : byte) : Py.int_from_bytes [c] = byte_val c.
Proof. reflexivity. Qed.

(** ** The match finder *)

Lemma matching_characters_common (s1 : bytes) :
  forall s2, common_prefix (matching_characters s1 s2) s1 s2.
Proof.
  unfold common_prefix.
  induction s1 as [|c1 t1 IH]; intros [|c2 t2]; simpl;
    try (repeat split; lia).
  destruct (Byte.eqb c1 c2) eqn:E; simpl; [|repeat split; lia].
  apply Byte.byte_dec_bl in E. subst c2.
  destruct (IH t2) as (H1 & H2 & H3).
  repeat split; try lia. now f_equal.
Qed.

Lemma matching_characters_longest (s1 : bytes) :
  forall s2 m, common_prefix m s1 s2 -> (m <= matching_characters s1 s2)%nat.
Proof.
  unfold common_prefix.
  induction s1 as [|c1 t1 IH]; intros [|c2 t2] m (H1 & H2 & H3);
    simpl in *; try lia.
  destruct m as [|m]; [lia|]. simpl in H3. injection H3 as -> H3.
  rewrite (Byte.byte_dec_lb (eq_refl c2)). apply le_n_S. apply IH. repeat split; auto; lia.
Qed.

Lemma matching_characters_lcp (s1 s2 : bytes) :
  longest_common_prefix (matching_characters s1 s2) s1 s2.
Proof.
  split; [apply matching_characters_common|].
  intros m. apply matching_characters_longest.
Qed.

Lemma matching_characters_nil_r (s1 : bytes) : matching_characters s1 [] = 0%nat.
Proof. now destruct s1. Qed.

(** A shorter prefix of a match is still common to both sequences. *)
Lemma matching_characters_firstn (s1 s2 : bytes) (c : nat) :
  (c <= matching_characters s1 s2)%nat -> firstn c s1 = firstn c s2.
Proof.
  intros Hc. destruct (matching_characters_common s1 s2) as (_ & _ & H).
  rewrite <- (Nat.min_l c (matching_characters s1 s2)) by lia.
  rewrite <- !firstn_firstn. now rewrite H.
Qed.

Section MatchFinder.
Variable self : LempelZiv.t.
Variables window string : bytes.

Let count : nat -> nat := match_count window string.

(** The generator [matches] of [longest_substring], as a list. *)
Lemma matches_eq :
  map (fun '(i, j) =>
         (i, matching_characters (Py.slice window (Some (Z.of_nat j)) None) string))
      (Py.enumerate (Py.range (window_size self)))
  = map (fun j => (j, count j)) (seq 0 (Z.to_nat (window_size self))).
Proof.
  unfold Py.enumerate, Py.range. rewrite length_seq.
  generalize (Z.to_nat (window_size self)) as n.
  generalize 0%nat as a. intros a n. revert a.
  induction n as [|n IH]; intros a; [reflexivity|].
  simpl. rewrite IH. f_equal. unfold count, match_count.
  rewrite slice_from by lia. now rewrite Nat2Z.id.
Qed.

Lemma max_scan (n : nat) :
  forall a best,
    best_below window string a best ->
    best_below window string (a + n)
      (fold_left (fun best y => if (snd best <? snd y)%nat then y else best)
                 (map (fun j => (j, count j)) (seq a n)) best).
Proof.
  induction n as [|n IH]; intros a best Hb; cbn [seq map fold_left].
  - now rewrite Nat.add_0_r.
  - replace (a + S n)%nat with (S a + n)%nat by lia.
    apply IH. destruct Hb as (i & -> & Hi & Hmax & Hfirst).
    cbn [snd]. fold count in Hmax, Hfirst |- *.
    destruct (count i <? count a)%nat eqn:E.
    + apply Nat.ltb_lt in E. exists a. fold count.
      split; [reflexivity|]. split; [lia|]. split.
      * intros j Hj. destruct (Nat.eq_dec j a) as [->|]; [lia|].
        specialize (Hmax j). lia.
      * intros j Hj. specialize (Hmax j). lia.
    + apply Nat.ltb_ge in E. exists i. fold count.
      split; [reflexivity|]. split; [lia|]. split; [|exact Hfirst].
      intros j Hj. destruct (Nat.eq_dec j a) as [->|]; [lia|].
      apply Hmax. lia.
Qed.

Lemma longest_substring_best :
  0 < window_size self ->
  best_below window string (Z.to_nat (window_size self))
             (longest_substring self window string).
Proof.
  intros HW. unfold longest_substring. rewrite matches_eq.
  destruct (Z.to_nat (window_size self)) as [|n] eqn:En; [lia|].
  cbn [seq map Py.max_by].
  apply (max_scan n 1 (0%nat, count 0%nat)).
  exists 0%nat. fold count.
  split; [reflexivity|]. split; [lia|]. split.
  - intros j Hj. replace j with 0%nat by lia. lia.
  - intros j Hj. lia.
Qed.

End MatchFinder.

Lemma window_size_init (lookahead_size window_size : Z) :
  255 <= LempelZiv.window_size (init lookahead_size window_size).
Proof. unfold init, max_window_size. simpl. lia. Qed.

(** C6.  For a [LempelZiv] object built by the constructor and any
    window and lookahead of which one is at most [max_match_depth] bytes
    long (so that no call of [matching_characters] nests deeper than the
    interpreter allows), [longest_substring] returns a pair
    [(offset, length)] where [offset] is below [window_size], [length] is
    the count [matching_characters] gives for [window[offset:]] and the
    lookahead, that count is the longest-common-prefix count of the two
    sequences, no offset in [[0, window_size)] has a larger count, every
    lower offset has a strictly smaller one (ties go to the lowest
    offset), and the result is [(0, 0)] when the window is empty, the
    lookahead is empty, or every offset has count 0. *)
Theorem longest_substring_contract (lookahead_size window_size : Z)
    (window lookahead : bytes) :
  let self := init lookahead_size window_size in
  let W := Z.to_nat (LempelZiv.window_size self) in
  let count i := matching_characters (skipn i window) lookahead in
  (Nat.min (length window) (length lookahead) <= max_match_depth)%nat ->
  let '(offset, len) := longest_substring self window lookahead in
  (offset < W)%nat
  /\ len = count offset
  /\ (forall i, longest_common_prefix (count i) (skipn i window) lookahead)
  /\ (forall i, (i < W)%nat -> (count i <= len)%nat)
  /\ (forall i, (i < offset)%nat -> (count i < len)%nat)
  /\ (window = [] \/ lookahead = [] \/ (forall i, (i < W)%nat -> count i = 0%nat) ->
      (offset, len) = (0%nat, 0%nat)).
Proof.
  intros self W count _.
  assert (HW : 0 < LempelZiv.window_size self).
  { pose proof (window_size_init lookahead_size window_size). unfold self. lia. }
  destruct (longest_substring_best self window lookahead HW)
    as (i & -> & Hi & Hmax & Hfirst).
  fold W count in Hi, Hmax, Hfirst |- *.
  split; [exact Hi|]. split; [reflexivity|].
  split; [intros j; apply matching_characters_lcp|].
  split; [exact Hmax|]. split; [exact Hfirst|].
  intros Hdeg.
  assert (Hz : count i = 0%nat).
  { destruct Hdeg as [-> | [-> | Hall]].
    - unfold count. now rewrite skipn_nil.
    - apply matching_characters_nil_r.
    - now apply Hall. }
  destruct i as [|i]; [f_equal; exact Hz|].
  specialize (Hfirst 0%nat). unfold count, match_count in *. lia.
Qed.

(** The contract on the window ["aabbccabcabcde"] and the lookahead
    ["cabcdadfbasd"]: the result is the count at offset 8, and no offset
    below the window size does better. *)
Lemma longest_substring_contract_witness :
  let window := list_byte_of_string "aabbccabcabcde" in
  let lookahead := list_byte_of_string "cabcdadfbasd" in
  (Nat.min (length window) (length lookahead) <= max_match_depth)%nat
  /\ matching_characters (skipn 8 window) lookahead = 5%nat
  /\ forall i, (i < 255)%nat ->
                (matching_characters (skipn i window) lookahead <= 5)%nat.
Proof.
  intros window lookahead.
  assert (Hfit : (Nat.min (length window) (length lookahead)
                  <= max_match_depth)%nat) by (vm_compute; lia).
  split; [exact Hfit|].
  pose proof (longest_substring_contract 20 100 window lookahead Hfit) as C.
  assert (E : longest_substring (init 20 100) window lookahead = (8%nat, 5%nat))
    by (vm_compute; reflexivity).
  rewrite E in C. destruct C as (_ & H5 & _ & Hmax & _).
  split; [symmetry; exact H5 | exact Hmax].
Defined.

(** C5, as the code behaves.  With the window ["aabbccabcabcde"] and the
    lookahead ["cabcdadfbasd"] the match finder returns offset 8 with
    length 5 (the bytes ["cabcd"]); the match at offset 5 has length 4
    and the one at offset 4 has length 1, and neither is selected. *)
Theorem longest_substring_docstring_example :
  let window := list_byte_of_string "aabbccabcabcde" in
  let lookahead := list_byte_of_string "cabcdadfbasd" in
  longest_substring default window lookahead = (8%nat, 5%nat)
  /\ firstn 5 (skipn 8 window) = list_byte_of_string "cabcd"
  /\ matching_characters (skipn 5 window) lookahead = 4%nat
  /\ matching_characters (skipn 4 window) lookahead = 1%nat.
Proof. vm_compute. repeat split. Qed.

(** C5 as stated fails: the result is not offset 5 with length 4. *)
Lemma longest_substring_not_5_4 :
  longest_substring default (list_byte_of_string "aabbccabcabcde")
                            (list_byte_of_string "cabcdadfbasd")
  <> (5%nat, 4%nat).
Proof. vm_compute. discriminate. Qed.

(** ** Token layout *)

Lemma be_bits_length (width : nat) (n : Z) : length (be_bits width n) = width.
Proof. unfold be_bits. now rewrite length_map, length_rev, length_seq. Qed.

Lemma byte_bits_be (c : byte) : byte_bits c = be_bits 8 (byte_val c).
Proof. destruct c; reflexivity. Qed.

Ltac nibble_cases l :=
  destruct l as [|p|p]; try lia;
  do 4 (try (destruct p as [p|p|]; try lia)); try reflexivity.

Lemma bin_values_nibble (l : Z) :
  1 <= l <= 15 ->
  repeat false (Z.to_nat (4 - Z.of_nat (length (Py.bin_values l))))
  ++ Py.bin_values l = be_bits 4 l.
Proof. intros Hl. nibble_cases l. Qed.

Lemma lengther_nibble (bitarr : bitarray) (l : Z) :
  1 <= l <= 15 -> lengther bitarr l = bitarr ++ be_bits 4 l.
Proof.
  intros Hl. unfold lengther. rewrite <- app_assoc.
  now rewrite bin_values_nibble.
Qed.

Lemma length_decode_nibble (l : Z) :
  0 <= l <= 15 -> length_decode (be_bits 4 l) = l.
Proof. intros Hl. nibble_cases l. Qed.

Lemma make_literal_bits (bitarr : bitarray) (c : byte) :
  make_literal bitarr (byte_val c) = Ok (bitarr ++ false :: byte_bits c).
Proof.
  unfold make_literal. rewrite to_bytes1_byte_val. cbn [bind].
  now rewrite frombytes_one, <- app_assoc.
Qed.

Lemma make_pointer_bits (bitarr : bitarray) (d l : Z) (c : byte) :
  Py.to_bytes1 d = Ok c -> 1 <= l <= 15 ->
  make_pointer bitarr d l = Ok (bitarr ++ true :: byte_bits c ++ be_bits 4 l).
Proof.
  intros Hd Hl. unfold make_pointer. rewrite Hd. cbn [bind].
  rewrite lengther_nibble by assumption.
  now rewrite frombytes_one, <- !app_assoc.
Qed.

Lemma make_pointer_overflow (bitarr : bitarray) (d l : Z) :
  255 < d -> make_pointer bitarr d l = Raise OverflowError.
Proof.
  intros Hd. unfold make_pointer. now rewrite to_bytes1_overflow.
Qed.

(** ** Decoder steps *)

Lemma decode_loop_S (fuel : nat) (bitarr : bitarray) (outBuffer : bytes) :
  (9 <= length bitarr)%nat ->
  decode_loop (S fuel) bitarr outBuffer
  = if negb (hd false bitarr) then
      decode_loop fuel (Py.del_slice bitarr 0 9)
        (outBuffer ++ tobytes (Py.slice bitarr (Some 1) (Some 9)))
    else
      decode_loop fuel (Py.del_slice bitarr 0 13)
        (outBuffer
         ++ copy_string outBuffer
              (Py.int_from_bytes (tobytes (Py.slice bitarr (Some 1) (Some 9))))
              (length_decode (Py.slice bitarr (Some 9) (Some 13)))).
Proof.
  intros Hlen. cbn [decode_loop].
  replace (9 <=? Z.of_nat (length bitarr)) with true
    by (symmetry; apply Z.leb_le; lia).
  reflexivity.
Qed.

Lemma decode_loop_stop (fuel : nat) (bitarr : bitarray) (outBuffer : bytes) :
  (length bitarr < 9)%nat -> decode_loop fuel bitarr outBuffer = Some outBuffer.
Proof.
  intros Hlen.
  assert (E : (9 <=? Z.of_nat (length bitarr)) = false) by (apply Z.leb_gt; lia).
  destruct fuel; cbn [decode_loop]; now rewrite E.
Qed.

(** Names the eight bits of [byte_bits c], keeping what [tobytes]
    makes of them. *)
Ltac explicit_bits c :=
  let H := fresh "Hlen" in
  let Ht := fresh "Hbyte" in
  let l := fresh "l" in
  pose proof (byte_bits_length c) as H;
  pose proof (tobytes_one c) as Ht;
  remember (byte_bits c) as l;
  do 8 (destruct l as [|? l]; [discriminate H|]);
  destruct l; [clear H|discriminate H].

Lemma decode_literal (fuel : nat) (c : byte) (rest : bitarray) (outBuffer : bytes) :
  decode_loop (S fuel) (false :: byte_bits c ++ rest) outBuffer
  = decode_loop fuel rest (outBuffer ++ [c]).
Proof.
  explicit_bits c.
  rewrite decode_loop_S by (simpl; lia).
  cbn [hd negb].
  rewrite slice_between, del_prefix by lia.
  change (Z.to_nat (9 - 1)) with 8%nat.
  change (Z.to_nat 1) with 1%nat. change (Z.to_nat 9) with 9%nat.
  cbn [skipn firstn app]. now rewrite Hbyte.
Qed.

Lemma decode_pointer (fuel : nat) (c : byte) (l : Z) (rest : bitarray)
    (outBuffer : bytes) :
  0 <= l <= 15 ->
  decode_loop (S fuel) (true :: byte_bits c ++ be_bits 4 l ++ rest) outBuffer
  = decode_loop fuel rest (outBuffer ++ copy_string outBuffer (byte_val c) l).
Proof.
  intros Hl.
  pose proof (length_decode_nibble l Hl) as Hdec.
  pose proof (be_bits_length 4 l) as Hn.
  remember (be_bits 4 l) as nib.
  do 4 (destruct nib as [|? nib]; [discriminate Hn|]).
  destruct nib; [clear Hn|discriminate Hn].
  explicit_bits c.
  rewrite decode_loop_S by (simpl; lia).
  cbn [hd negb].
  rewrite !slice_between, del_prefix by lia.
  change (Z.to_nat (9 - 1)) with 8%nat. change (Z.to_nat (13 - 9)) with 4%nat.
  change (Z.to_nat 1) with 1%nat. change (Z.to_nat 9) with 9%nat.
  change (Z.to_nat 13) with 13%nat.
  cbn [skipn firstn app]. now rewrite Hbyte, Hdec, int_from_bytes_one.
Qed.

Lemma decodes_to_stop (pad : bitarray) (outBuffer : bytes) :
  (length pad < 9)%nat -> decodes_to pad outBuffer outBuffer.
Proof. intros Hp fuel _. now apply decode_loop_stop. Qed.

Lemma decodes_to_literal (c : byte) (rest : bitarray) (outBuffer r : bytes) :
  decodes_to rest (outBuffer ++ [c]) r ->
  decodes_to (false :: byte_bits c ++ rest) outBuffer r.
Proof.
  intros Hrest fuel Hfuel.
  cbn [length] in Hfuel. rewrite length_app in Hfuel.
  destruct fuel as [|fuel]; [lia|].
  rewrite decode_literal. apply Hrest. lia.
Qed.

Lemma decodes_to_pointer (c : byte) (l : Z) (rest : bitarray) (outBuffer r : bytes) :
  0 <= l <= 15 ->
  decodes_to rest (outBuffer ++ copy_string outBuffer (byte_val c) l) r ->
  decodes_to (true :: byte_bits c ++ be_bits 4 l ++ rest) outBuffer r.
Proof.
  intros Hl Hrest fuel Hfuel.
  cbn [length] in Hfuel. rewrite !length_app in Hfuel.
  destruct fuel as [|fuel]; [lia|].
  rewrite decode_pointer by assumption. apply Hrest. lia.
Qed.

(** What the expressions of the decoder loop read from a stream that
    starts with a Literal: the byte at [bitarr[1:9]], and the rest of
    the stream after [del bitarr[0:9]]. *)
Lemma literal_fields (c : byte) (rest : bitarray) :
  let stream := false :: byte_bits c ++ rest in
  hd false stream = false
  /\ tobytes (Py.slice stream (Some 1) (Some 9)) = [c]
  /\ Py.del_slice stream 0 9 = rest.
Proof.
  intros stream. subst stream. explicit_bits c.
  rewrite slice_between, del_prefix by lia.
  change (Z.to_nat (9 - 1)) with 8%nat.
  change (Z.to_nat 1) with 1%nat. change (Z.to_nat 9) with 9%nat.
  cbn [hd skipn firstn app]. now rewrite Hbyte.
Qed.

(** What they read from a stream that starts with a Pointer: the
    distance at [bitarr[1:9]], the length at [bitarr[9:13]], and the
    rest of the stream after [del bitarr[0:13]]. *)
Lemma pointer_fields (c : byte) (l : Z) (rest : bitarray) :
  0 <= l <= 15 ->
  let stream := true :: byte_bits c ++ be_bits 4 l ++ rest in
  hd false stream = true
  /\ Py.int_from_bytes (tobytes (Py.slice stream (Some 1) (Some 9))) = byte_val c
  /\ length_decode (Py.slice stream (Some 9) (Some 13)) = l
  /\ Py.del_slice stream 0 13 = rest.
Proof.
  intros Hl stream. subst stream.
  pose proof (length_decode_nibble l Hl) as Hdec.
  pose proof (be_bits_length 4 l) as Hn.
  remember (be_bits 4 l) as nib.
  do 4 (destruct nib as [|? nib]; [discriminate Hn|]).
  destruct nib; [clear Hn|discriminate Hn].
  explicit_bits c.
  rewrite !slice_between, del_prefix by lia.
  change (Z.to_nat (9 - 1)) with 8%nat. change (Z.to_nat (13 - 9)) with 4%nat.
  change (Z.to_nat 1) with 1%nat. change (Z.to_nat 9) with 9%nat.
  change (Z.to_nat 13) with 13%nat.
  cbn [hd skipn firstn app]. now rewrite Hbyte, Hdec, int_from_bytes_one.
Qed.

(** C7.  A Literal is the flag bit 0 followed by the eight bits of the
    byte, most significant first, nine bits in all; a Pointer with
    [1 <= distance <= 255] and [1 <= length <= 15] is the flag bit 1, the
    eight bits of the distance and the four bits of the length, both most
    significant first, thirteen bits in all.  Each writer appends its
    bits directly behind whatever [bitarr] already holds, and [tobytes]
    packs eight consecutive bits into one byte with the first bit as the
    most significant.  On a stream that starts with such a token the
    decoder reads the same fields back with the same widths: the flag at
    [bitarr[0]], the byte or the distance at [bitarr[1:9]], the length
    at [bitarr[9:13]], and [del] leaves exactly the bits behind the
    token; one iteration of its loop therefore goes on with the rest of
    the stream and with the byte, or the bytes the Pointer copies,
    appended to the output; and when fewer than nine bits follow the
    token the decoder returns the output with exactly that appended. *)
Theorem token_bit_format (c : byte) (distance length_ : Z)
    (bitarr rest : bitarray) (outBuffer : bytes) (fuel : nat) :
  1 <= distance <= 255 ->
  1 <= length_ <= 15 ->
  let literal := false :: be_bits 8 (byte_val c) in
  let pointer := true :: be_bits 8 distance ++ be_bits 4 length_ in
  make_literal bitarr (byte_val c) = Ok (bitarr ++ literal)
  /\ Z.of_nat (length literal) = literal_bits default
  /\ make_pointer bitarr distance length_ = Ok (bitarr ++ pointer)
  /\ Z.of_nat (length pointer) = pointer_bits default
  /\ tobytes (be_bits 8 (byte_val c) ++ rest) = c :: tobytes rest
  /\ decode_loop (S fuel) (literal ++ rest) outBuffer
     = decode_loop fuel rest (outBuffer ++ [c])
  /\ decode_loop (S fuel) (pointer ++ rest) outBuffer
     = decode_loop fuel rest
         (outBuffer ++ copy_string outBuffer distance length_)
  /\ (hd false (literal ++ rest) = false
      /\ tobytes (Py.slice (literal ++ rest) (Some 1) (Some 9)) = [c]
      /\ Py.del_slice (literal ++ rest) 0 9 = rest)
  /\ (hd false (pointer ++ rest) = true
      /\ Py.int_from_bytes (tobytes (Py.slice (pointer ++ rest) (Some 1) (Some 9)))
         = distance
      /\ length_decode (Py.slice (pointer ++ rest) (Some 9) (Some 13)) = length_
      /\ Py.del_slice (pointer ++ rest) 0 13 = rest)
  /\ ((length rest < 9)%nat ->
      decode_loop (S fuel) (literal ++ rest) outBuffer = Some (outBuffer ++ [c])
      /\ decode_loop (S fuel) (pointer ++ rest) outBuffer
         = Some (outBuffer ++ copy_string outBuffer distance length_)).
Proof.
  intros Hd Hl literal pointer. subst literal pointer.
  destruct (to_bytes1_in_range distance ltac:(lia)) as (cd & Hcd & Hval).
  rewrite <- Hval. rewrite <- !byte_bits_be.
  assert (Hptr : forall r : bitarray,
             (true :: byte_bits cd ++ be_bits 4 length_) ++ r
             = true :: byte_bits cd ++ be_bits 4 length_ ++ r)
    by (intros r; cbn [app]; now rewrite <- app_assoc).
  split; [apply make_literal_bits|].
  split; [simpl; now rewrite byte_bits_length|].
  split; [rewrite Hval; now apply make_pointer_bits|].
  split; [simpl; now rewrite length_app, byte_bits_length, be_bits_length|].
  split; [apply tobytes_byte_bits|].
  split; [apply decode_literal|].
  split; [rewrite Hptr; apply decode_pointer; lia|].
  split; [apply (literal_fields c rest)|].
  split; [rewrite Hptr; apply (pointer_fields cd length_ rest); lia|].
  intros Hrest. split.
  - cbn [app]. rewrite decode_literal. now apply decode_loop_stop.
  - rewrite Hptr, decode_pointer by lia. now apply decode_loop_stop.
Qed.

(** The format at the byte 97, distance 2 and length 5, and what the
    decoder returns on each token alone with the output ["xab"]: the
    Literal appends ["a"], the Pointer appends [outBuffer[-2:3]], the
    two bytes ["ab"]. *)
Lemma token_bit_format_witness :
  make_literal [] (byte_val "a"%byte)
  = Ok [false; false; true; true; false; false; false; false; true]
  /\ make_pointer [] 2 5
     = Ok [true; false; false; false; false; false; false; true; false;
           false; true; false; true]
  /\ decode_loop 1 [false; false; true; true; false; false; false; false; true]
                 (list_byte_of_string "xab")
     = Some (list_byte_of_string "xaba")
  /\ decode_loop 1 [true; false; false; false; false; false; false; true; false;
                    false; true; false; true]
                 (list_byte_of_string "xab")
     = Some (list_byte_of_string "xabab").
Proof.
  destruct (token_bit_format "a"%byte 2 5 [] [] (list_byte_of_string "xab") 0
              ltac:(lia) ltac:(lia))
    as (Hlit & _ & Hptr & _ & _ & _ & _ & _ & _ & Hrun).
  destruct (Hrun ltac:(cbn; lia)) as [Hrun_lit Hrun_ptr].
  split; [exact Hlit|]. split; [exact Hptr|].
  split; [exact Hrun_lit | exact Hrun_ptr].
Defined.

(** ** The bytes a pointer copies *)

(** A pointer that does not reach past the end of the output: the
    [l] bytes that start [d] bytes back. *)
Lemma copy_string_plain (outBuffer : bytes) (d l : Z) :
  1 <= l <= d -> d <= Z.of_nat (length outBuffer) ->
  copy_string outBuffer d l
  = firstn (Z.to_nat l) (skipn (length outBuffer - Z.to_nat d) outBuffer).
Proof.
  intros Hl Hd. unfold copy_string.
  destruct (d =? l) eqn:E.
  - apply Z.eqb_eq in E. subst l. rewrite slice_last by lia.
    symmetry. apply firstn_all2. rewrite length_skipn. lia.
  - apply Z.eqb_neq in E. apply slice_back; lia.
Qed.

(** C2, as the code behaves.  The decoder has no overlapping copy: for
    a Pointer with [distance < length] it appends the slice
    [outBuffer[-distance : length - distance]], whose start counts from
    the end of the output and whose stop counts from its front.  With [n]
    the size of the output these are the bytes from position
    [max(0, n - distance)] up to position [min(length - distance, n)]:
    at most [length - distance] bytes, so never [length] bytes of a
    repeated pattern. *)
Theorem copy_string_overlapping (outBuffer : bytes) (distance length_ : Z) :
  0 < distance < length_ ->
  let n := Z.of_nat (length outBuffer) in
  copy_string outBuffer distance length_
  = firstn (Z.to_nat (Z.min (length_ - distance) n - Z.max 0 (n - distance)))
           (skipn (Z.to_nat (n - distance)) outBuffer)
  /\ Z.of_nat (length (copy_string outBuffer distance length_))
     <= length_ - distance.
Proof.
  intros Hd n.
  assert (E : copy_string outBuffer distance length_
              = firstn (Z.to_nat (Z.min (length_ - distance) n
                                  - Z.max 0 (n - distance)))
                       (skipn (Z.to_nat (n - distance)) outBuffer)).
  { unfold copy_string, Py.slice, Py.clamp_index. fold n.
    destruct (distance =? length_) eqn:E1; [apply Z.eqb_eq in E1; lia|].
    destruct (- distance <? 0) eqn:E2; [|apply Z.ltb_ge in E2; lia].
    destruct (- distance + length_ <? 0) eqn:E3; [apply Z.ltb_lt in E3; lia|].
    f_equal; [|f_equal]; lia. }
  split; [exact E|].
  rewrite E, length_firstn. lia.
Qed.

(** Distance 2 and length 5 against the output ["ab"]: two bytes,
    ["ab"], are appended. *)
Lemma copy_string_overlapping_witness :
  copy_string (list_byte_of_string "ab") 2 5 = list_byte_of_string "ab".
Proof.
  destruct (copy_string_overlapping (list_byte_of_string "ab") 2 5 ltac:(lia))
    as [E _].
  exact E.
Defined.

(** C2 as stated fails: distance 2 and length 5 against ["ab"] do not
    append ["ababa"], and the decoder run on that one Pointer ends with
    ["abab"], not ["abababa"]. *)
Lemma overlapping_copy_not_cyclic :
  copy_string (list_byte_of_string "ab") 2 5 <> list_byte_of_string "ababa"
  /\ decode_loop 1 (true :: be_bits 8 2 ++ be_bits 4 5) (list_byte_of_string "ab")
     = Some (list_byte_of_string "abab").
Proof. split; [vm_compute; discriminate | vm_compute; reflexivity]. Qed.

(** ** The encoder loop *)

Lemma literal_map_bits (bytestring : bytes) :
  forall bitarr,
    literal_map bitarr bytestring
    = Ok (bitarr ++ flat_map (fun c => false :: byte_bits c) bytestring).
Proof.
  induction bytestring as [|c rest IH]; intros bitarr; cbn [literal_map flat_map].
  - now rewrite app_nil_r.
  - rewrite make_literal_bits. cbn [bind]. rewrite IH.
    now rewrite <- app_assoc.
Qed.

Lemma update_and_stop_eq (file : bytes) (bitarr : bitarray)
    (window_buffer lookahead_buffer : bytes) (lookahead_size c : Z) :
  0 <= c ->
  update_and_stop file bitarr window_buffer lookahead_buffer lookahead_size c
  = match skipn (Z.to_nat c) lookahead_buffer with
    | [] => Break (tobytes (fill bitarr))
    | _ :: _ =>
        Continue {| Loop.file := file;
                    Loop.bitarr := bitarr;
                    Loop.window_buffer :=
                      skipn (Z.to_nat c) window_buffer
                      ++ firstn (Z.to_nat c) lookahead_buffer;
                    Loop.lookahead_buffer := skipn (Z.to_nat c) lookahead_buffer;
                    Loop.lookahead_size := lookahead_size - c |}
    end.
Proof.
  intros Hc. unfold update_and_stop.
  now rewrite !slice_from, slice_to by assumption.
Qed.

Lemma refill_split (self : t) (st : Loop.state) :
  let out := refill_out self st in
  refill self st
  = (Loop.lookahead_buffer st ++ out,
     match out with
     | [] => Loop.lookahead_size st
     | _ :: _ => lookahead_size self
     end,
     skipn (length out) (Loop.file st))
  /\ Loop.file st = out ++ skipn (length out) (Loop.file st)
  /\ (lookahead_size self - Loop.lookahead_size st < 0 ->
      out = Loop.file st)
  /\ (0 <= lookahead_size self - Loop.lookahead_size st ->
      length out = Nat.min (Z.to_nat (lookahead_size self - Loop.lookahead_size st))
                           (length (Loop.file st))).
Proof.
  unfold refill_out, refill, Py.read.
  destruct (lookahead_size self - Loop.lookahead_size st <? 0) eqn:E; cbn [fst].
  - apply Z.ltb_lt in E.
    rewrite skipn_all, app_nil_r.
    split; [|split; [reflexivity|split; [reflexivity|lia]]].
    destruct (Loop.file st); [now rewrite app_nil_r|reflexivity].
  - apply Z.ltb_ge in E.
    set (n := Z.to_nat (lookahead_size self - Loop.lookahead_size st)).
    assert (Hskip : skipn (length (firstn n (Loop.file st))) (Loop.file st)
                    = skipn n (Loop.file st)).
    { rewrite length_firstn.
      destruct (Nat.le_gt_cases n (length (Loop.file st))).
      - now rewrite Nat.min_l.
      - rewrite Nat.min_r by lia. now rewrite skipn_all, skipn_all2 by lia. }
    rewrite Hskip.
    split; [|split; [|split; [lia|]]].
    + destruct (firstn n (Loop.file st)); [now rewrite app_nil_r|reflexivity].
    + symmetry. apply firstn_skipn.
    + intros _. apply length_firstn.
Qed.

Lemma decoded_nil : decoded [] [].
Proof. intros tail r Hr. exact Hr. Qed.

Lemma decoded_literals (bytestring : bytes) :
  forall bitarr processed,
    decoded bitarr processed ->
    decoded (bitarr ++ flat_map (fun c => false :: byte_bits c) bytestring)
            (processed ++ bytestring).
Proof.
  induction bytestring as [|c rest IH]; intros bitarr processed Hdec.
  - cbn [flat_map]. now rewrite !app_nil_r.
  - cbn [flat_map].
    replace (bitarr ++ (false :: byte_bits c)
               ++ flat_map (fun c => false :: byte_bits c) rest)
      with ((bitarr ++ false :: byte_bits c)
              ++ flat_map (fun c => false :: byte_bits c) rest)
      by now rewrite <- app_assoc.
    replace (processed ++ c :: rest) with ((processed ++ [c]) ++ rest)
      by now rewrite <- app_assoc.
    apply IH. intros tail r Hr. rewrite <- app_assoc. apply Hdec.
    cbn [app]. now apply decodes_to_literal.
Qed.

Lemma decode_decoded (s : LempelZiv.t) (bitarr : bitarray) (x : bytes) :
  decoded bitarr x ->
  decode s (tobytes (fill bitarr))
  = Some (if Py.utf8_valid x then Ok x else Raise UnicodeDecodeError).
Proof.
  intros Hdec. unfold decode. rewrite frombytes_tobytes_fill.
  destruct (fill_padding bitarr) as (pad & Hfill & Hpad). rewrite Hfill.
  assert (Hstop : decodes_to pad x x) by (apply decodes_to_stop; lia).
  now rewrite (Hdec pad x Hstop (length (bitarr ++ pad)) (le_n _)).
Qed.

(** The iteration budget of [decode] is never used up. *)
Lemma decode_loop_returns (fuel : nat) :
  forall bitarr outBuffer,
    (length bitarr <= fuel)%nat -> decode_loop fuel bitarr outBuffer <> None.
Proof.
  induction fuel as [|fuel IH]; intros bitarr outBuffer Hfuel.
  - rewrite decode_loop_stop by lia. discriminate.
  - destruct (Nat.le_gt_cases 9 (length bitarr)) as [Hlen|Hlen].
    + rewrite decode_loop_S by assumption.
      rewrite !del_prefix by lia.
      destruct (negb (hd false bitarr)); apply IH; rewrite length_skipn; lia.
    + rewrite decode_loop_stop by lia. discriminate.
Qed.

Lemma decode_returns (self : LempelZiv.t) (input : bytes) :
  decode self input <> None.
Proof.
  unfold decode.
  pose proof (decode_loop_returns (length (frombytes input)) (frombytes input) []
                                  (le_n _)).
  destruct (decode_loop _ _ _); [discriminate|contradiction].
Qed.

Section Encoder.

(** The arguments the constructor was called with. *)
Variables requested_lookahead requested_window : Z.

Let self : LempelZiv.t := init requested_lookahead requested_window.
Let W : nat := Z.to_nat (window_size self).

Lemma window_size_W : window_size self = Z.of_nat W /\ (255 <= W)%nat.
Proof.
  pose proof (window_size_init requested_lookahead requested_window) as Hinit.
  unfold W. fold self in Hinit. lia.
Qed.

Lemma max_copy_length_le : max_copy_length self <= 15.
Proof. unfold self, init. simpl. lia. Qed.

(** "do the encoding", with the token written out bit by bit. *)
Lemma do_encoding_eq (bitarr : bitarray) (window lookahead : bytes) :
  do_encoding self bitarr window lookahead
  = let '(offset, len) := longest_substring self window lookahead in
    let d := window_size self - Z.of_nat offset in
    let c := Z.min (Z.of_nat len) (max_copy_length self) in
    if 1 <? c then
      match Py.to_bytes1 d with
      | Ok cd => Ok (bitarr ++ true :: byte_bits cd ++ be_bits 4 c, c)
      | Raise e => Raise e
      end
    else
      match lookahead with
      | [] => Raise IndexError
      | ch :: _ => Ok (bitarr ++ false :: byte_bits ch, 1)
      end.
Proof.
  unfold do_encoding.
  destruct (longest_substring self window lookahead) as [offset len].
  cbv zeta.
  destruct (1 <? Z.min (Z.of_nat len) (max_copy_length self)) eqn:E.
  - apply Z.ltb_lt in E. pose proof max_copy_length_le.
    destruct (Py.to_bytes1 (window_size self - Z.of_nat offset)) as [cd|e] eqn:Ed.
    + rewrite (make_pointer_bits _ _ _ cd) by (assumption || lia).
      reflexivity.
    + unfold make_pointer. now rewrite Ed.
  - destruct lookahead as [|ch t]; [reflexivity|].
    now rewrite make_literal_bits.
Qed.

Lemma last_window_slide (processed lookahead : bytes) (c : nat) :
  (W <= length processed)%nat -> (c <= W)%nat -> (c <= length lookahead)%nat ->
  skipn c (last_window self processed) ++ firstn c lookahead
  = last_window self (processed ++ firstn c lookahead).
Proof.
  intros HW Hc Hl. unfold last_window. fold W.
  rewrite length_app, length_firstn, Nat.min_l by assumption.
  rewrite skipn_skipn, skipn_app.
  replace (length processed + c - W - length processed)%nat with 0%nat by lia.
  cbn [skipn]. f_equal. f_equal. lia.
Qed.

(** A copy of [c] bytes from offset [i] of the window, when the match
    there is at least [c] bytes long: the distance covers the length
    and the decoder's copy yields the first [c] lookahead bytes. *)
Lemma pointer_copy (processed lookahead : bytes) (i : nat) (c : Z) :
  (W <= length processed)%nat -> (i < W)%nat -> 1 <= c ->
  (Z.to_nat c <= matching_characters (skipn i (last_window self processed)) lookahead)%nat ->
  c <= window_size self - Z.of_nat i
  /\ copy_string processed (window_size self - Z.of_nat i) c
     = firstn (Z.to_nat c) lookahead.
Proof.
  intros HW Hi Hc Hmatch.
  destruct window_size_W as [HWz HW255].
  assert (Hwin : length (last_window self processed) = W)
    by (unfold last_window; fold W; rewrite length_skipn; lia).
  destruct (matching_characters_common (skipn i (last_window self processed)) lookahead)
    as (Hl1 & _ & _).
  rewrite length_skipn, Hwin in Hl1.
  split; [lia|].
  rewrite copy_string_plain by lia.
  replace (length processed - Z.to_nat (window_size self - Z.of_nat i))%nat
    with (i + (length processed - W))%nat by lia.
  rewrite <- skipn_skipn. fold W; fold (last_window self processed).
  now apply matching_characters_firstn.
Qed.

(** One token: it covers between 1 and 15 bytes of the lookahead, no
    more than the window holds, and the decoder reproduces them. *)
Lemma do_encoding_sound (processed : bytes) (bitarr bitarr' : bitarray)
    (lookahead : bytes) (c : Z) :
  (W <= length processed)%nat ->
  decoded bitarr processed ->
  do_encoding self bitarr (last_window self processed) lookahead = Ok (bitarr', c) ->
  1 <= c <= 15
  /\ (Z.to_nat c <= length lookahead)%nat
  /\ (Z.to_nat c <= W)%nat
  /\ decoded bitarr' (processed ++ firstn (Z.to_nat c) lookahead).
Proof.
  intros HW Hdec. rewrite do_encoding_eq.
  destruct window_size_W as [HWz HW255].
  pose proof max_copy_length_le as Hmax.
  assert (Hwin : length (last_window self processed) = W)
    by (unfold last_window; fold W; rewrite length_skipn; lia).
  destruct (longest_substring_best self (last_window self processed) lookahead
              ltac:(lia)) as (i & -> & Hi & _ & _).
  fold W in Hi. unfold match_count. cbv beta iota zeta.
  set (len := matching_characters (skipn i (last_window self processed)) lookahead).
  destruct (matching_characters_common (skipn i (last_window self processed)) lookahead)
    as (Hl1 & Hl2 & _).
  fold len in Hl1, Hl2. rewrite length_skipn, Hwin in Hl1.
  remember (Z.min (Z.of_nat len) (max_copy_length self)) as c' eqn:Hc'.
  destruct (1 <? c') eqn:E.
  - apply Z.ltb_lt in E.
    destruct (Py.to_bytes1 (window_size self - Z.of_nat i)) as [cd|e] eqn:Ed;
      [|discriminate].
    intros Heq. injection Heq as <- <-.
    apply to_bytes1_Ok in Ed. destruct Ed as [Hcd Hd].
    destruct (pointer_copy processed lookahead i c' HW Hi ltac:(lia))
      as [_ Hcopy]; [fold len; lia|].
    split; [lia|]. split; [lia|]. split; [lia|].
    intros tail r Hr. rewrite <- app_assoc. apply Hdec.
    cbn [app]. rewrite <- app_assoc.
    apply decodes_to_pointer; [lia|].
    now rewrite Hcd, Hcopy.
  - destruct lookahead as [|ch t]; [discriminate|].
    intros Heq. injection Heq as <- <-. cbn [length] in *.
    split; [lia|]. split; [lia|]. split; [lia|].
    intros tail r Hr. rewrite <- app_assoc. apply Hdec.
    cbn [app]. apply decodes_to_literal. exact Hr.
Qed.

Lemma do_encoding_nil (bitarr : bitarray) (window : bytes) :
  do_encoding self bitarr window [] = Raise IndexError.
Proof.
  rewrite do_encoding_eq.
  destruct window_size_W as [HWz HW255].
  destruct (longest_substring_best self window [] ltac:(lia))
    as (i & -> & _).
  unfold match_count. cbv beta iota zeta. rewrite matching_characters_nil_r.
  replace (1 <? Z.min (Z.of_nat 0) (max_copy_length self)) with false
    by (symmetry; apply Z.ltb_ge; lia).
  reflexivity.
Qed.

(** With a window size that fits the distance field and a lookahead
    that is not empty, a token is always written. *)
Lemma do_encoding_ok (bitarr : bitarray) (window lookahead : bytes) :
  window_size self <= 255 -> lookahead <> [] ->
  exists bitarr' c, do_encoding self bitarr window lookahead = Ok (bitarr', c).
Proof.
  intros Hfit Hne. rewrite do_encoding_eq.
  destruct window_size_W as [HWz HW255].
  destruct (longest_substring_best self window lookahead ltac:(lia))
    as (i & -> & Hi & _).
  fold W in Hi. unfold match_count. cbv beta iota zeta.
  destruct (1 <? _).
  - destruct (to_bytes1_in_range (window_size self - Z.of_nat i) ltac:(lia))
      as (cd & -> & _).
    eauto.
  - destruct lookahead; [contradiction|eauto].
Qed.

Variable input : bytes.

(** One pass through the loop body that does not raise. *)
Lemma encode_body_run (st : Loop.state) (r : step) :
  Inv self input st -> encode_body self st = Ok r ->
  let out := refill_out self st in
  let lookahead := Loop.lookahead_buffer st ++ out in
  let file := skipn (length out) (Loop.file st) in
  exists processed bitarr' c,
    input = processed ++ lookahead ++ file
    /\ (W <= length processed)%nat
    /\ Loop.window_buffer st = last_window self processed
    /\ 1 <= c <= 15
    /\ (Z.to_nat c <= length lookahead)%nat
    /\ decoded bitarr' (processed ++ firstn (Z.to_nat c) lookahead)
    /\ r = match skipn (Z.to_nat c) lookahead with
           | [] => Break (tobytes (fill bitarr'))
           | _ :: _ =>
               Continue
                 {| Loop.file := file;
                    Loop.bitarr := bitarr';
                    Loop.window_buffer :=
                      last_window self (processed ++ firstn (Z.to_nat c) lookahead);
                    Loop.lookahead_buffer := skipn (Z.to_nat c) lookahead;
                    Loop.lookahead_size :=
                      match out with
                      | [] => Loop.lookahead_size st
                      | _ :: _ => lookahead_size self
                      end - c |}
           end.
Proof.
  intros (processed & Hin & Hwin & Hfull & Hdec) Hbody out lookahead file.
  destruct (refill_split self st) as (Hre & Hfile & _).
  fold out in Hre, Hfile. fold lookahead file in Hre. fold file in Hfile.
  unfold encode_body in Hbody. rewrite Hre in Hbody.
  destruct (do_encoding self (Loop.bitarr st) (Loop.window_buffer st) lookahead)
    as [[bitarr' c]|e] eqn:Hdo; cbn [bind] in Hbody; [|discriminate].
  injection Hbody as <-.
  assert (HW : (W <= length processed)%nat).
  { destruct Hfull as [HW|[Hlb Hf]]; [exact HW|].
    assert (lookahead = []) as Hnil.
    { unfold lookahead. rewrite Hlb. rewrite Hf in Hfile.
      destruct out; [reflexivity|discriminate]. }
    rewrite Hnil, do_encoding_nil in Hdo. discriminate. }
  rewrite Hwin in Hdo.
  destruct (do_encoding_sound processed _ _ _ _ HW Hdec Hdo)
    as (Hc & Hlen & HcW & Hdec').
  exists processed, bitarr', c.
  split; [rewrite Hin, Hfile; unfold lookahead; now rewrite <- app_assoc|].
  split; [exact HW|]. split; [exact Hwin|]. split; [exact Hc|].
  split; [exact Hlen|]. split; [exact Hdec'|].
  rewrite update_and_stop_eq by lia.
  rewrite Hwin, last_window_slide by assumption.
  reflexivity.
Qed.

Lemma encode_eq :
  encode self input
  = encode_loop (S (length input)) self
      (initial (firstn W input) (skipn W input)
               (flat_map (fun c => false :: byte_bits c) (firstn W input))).
Proof.
  unfold encode, Py.read.
  destruct window_size_W as [HWz _].
  replace (window_size self <? 0) with false by (symmetry; apply Z.ltb_ge; lia).
  fold W. now rewrite literal_map_bits.
Qed.

Lemma Inv_initial :
  Inv self input
      (initial (firstn W input) (skipn W input)
               (flat_map (fun c => false :: byte_bits c) (firstn W input))).
Proof.
  exists (firstn W input). fold W.
  cbn [initial Loop.lookahead_buffer Loop.file Loop.bitarr Loop.window_buffer app].
  split; [now rewrite firstn_skipn|].
  split.
  { unfold last_window. fold W. rewrite length_firstn.
    replace (Nat.min W (length input) - W)%nat with 0%nat by lia.
    reflexivity. }
  split.
  { destruct (Nat.le_gt_cases W (length input)) as [Hle|Hgt].
    - left. rewrite length_firstn. lia.
    - right. split; [reflexivity|]. apply skipn_all2. lia. }
  apply (decoded_literals (firstn W input) [] []). apply decoded_nil.
Qed.

Lemma Inv_next (st st' : Loop.state) :
  Inv self input st -> encode_body self st = Ok (Continue st') ->
  Inv self input st'
  /\ (length (Loop.lookahead_buffer st') + length (Loop.file st')
      < length (Loop.lookahead_buffer st) + length (Loop.file st))%nat.
Proof.
  intros HI Hbody.
  destruct (encode_body_run st _ HI Hbody)
    as (processed & bitarr' & c & Hin & HW & Hwin & Hc & Hlen & Hdec & Hr).
  destruct (refill_split self st) as (_ & Hfile & _).
  set (out := refill_out self st) in *.
  set (lookahead := Loop.lookahead_buffer st ++ out) in *.
  destruct (skipn (Z.to_nat c) lookahead) as [|x rest] eqn:Hskip;
    [discriminate|].
  injection Hr as ->. cbn [Loop.lookahead_buffer Loop.file Loop.bitarr
                           Loop.window_buffer].
  split.
  - exists (processed ++ firstn (Z.to_nat c) lookahead).
    cbn [Loop.lookahead_buffer Loop.file Loop.bitarr Loop.window_buffer].
    split.
    { rewrite Hin, <- Hskip, <- app_assoc. f_equal.
      now rewrite app_assoc, firstn_skipn. }
    split; [reflexivity|].
    split; [left; rewrite length_app; lia|exact Hdec].
  - assert (length (x :: rest) = length lookahead - Z.to_nat c)%nat
      by (rewrite <- Hskip; apply length_skipn).
    assert (length (Loop.file st)
            = length out + length (skipn (length out) (Loop.file st)))%nat
      by (rewrite Hfile at 1; apply length_app).
    unfold lookahead in *. rewrite length_app in *. lia.
Qed.

Lemma reachable_Inv (st : Loop.state) : reachable self input st -> Inv self input st.
Proof.
  induction 1 as [window_buffer file bitarr Hread Hlit | st st' _ IH Hbody].
  - pose proof encode_eq as _. pose proof Inv_initial as HI.
    unfold Py.read in Hread. destruct window_size_W as [HWz _].
    replace (window_size self <? 0) with false in Hread
      by (symmetry; apply Z.ltb_ge; lia).
    fold W in Hread. injection Hread as <- <-.
    rewrite literal_map_bits in Hlit. injection Hlit as <-. exact HI.
  - now apply (Inv_next st st').
Qed.

(** Whatever [encode] writes decodes to the part of the input it
    consumed.  *)
Lemma encode_loop_prefix (written : bytes) (fuel : nat) :
  forall st,
    Inv self input st -> encode_loop fuel self st = Some (Ok written) ->
    exists bitarr processed unread,
      written = tobytes (fill bitarr)
      /\ decoded bitarr processed
      /\ input = processed ++ unread.
Proof.
  induction fuel as [|fuel IH]; intros st HI Hloop; [discriminate|].
  cbn [encode_loop] in Hloop.
  destruct (encode_body self st) as [[st'|w]|e] eqn:Hbody.
  - apply (IH st'); [|exact Hloop]. now apply (Inv_next st st').
  - injection Hloop as ->.
    destruct (encode_body_run st _ HI Hbody)
      as (processed & bitarr' & c & Hin & _ & _ & _ & _ & Hdec & Hr).
    destruct (skipn (Z.to_nat c) (Loop.lookahead_buffer st ++ refill_out self st))
      as [|x rest] eqn:Hskip; [|discriminate].
    injection Hr as ->.
    exists bitarr', (processed ++ firstn (Z.to_nat c)
                       (Loop.lookahead_buffer st ++ refill_out self st)),
      (skipn (length (refill_out self st)) (Loop.file st)).
    split; [reflexivity|]. split; [exact Hdec|].
    pose proof (firstn_skipn (Z.to_nat c)
                  (Loop.lookahead_buffer st ++ refill_out self st)) as Hall.
    rewrite Hskip, app_nil_r in Hall.
    rewrite Hall, <- app_assoc. exact Hin.
  - discriminate.
Qed.

(** The iteration budget of [encode] is never used up. *)
Lemma encode_loop_returns (fuel : nat) :
  forall st,
    Inv self input st ->
    (length (Loop.lookahead_buffer st) + length (Loop.file st) < fuel)%nat ->
    encode_loop fuel self st <> None.
Proof.
  induction fuel as [|fuel IH]; intros st HI Hfuel; [lia|].
  cbn [encode_loop].
  destruct (encode_body self st) as [[st'|w]|e] eqn:Hbody; try discriminate.
  destruct (Inv_next st st' HI Hbody) as [HI' Hless].
  apply IH; [assumption|lia].
Qed.

Lemma encode_returns : encode self input <> None.
Proof.
  rewrite encode_eq. apply encode_loop_returns; [apply Inv_initial|].
  cbn [initial Loop.lookahead_buffer Loop.file length].
  rewrite length_skipn. lia.
Qed.

Section GoodConfiguration.

(** The requested window fits the 8-bit distance field, and the
    lookahead is longer than the longest copy (or unbounded, which
    is what a negative size gives [file.read]). *)
Hypothesis window_fits : requested_window <= 255.
Hypothesis lookahead_outlasts_copy :
  requested_lookahead < 0 \/ 16 <= requested_lookahead.

(** After the refill the lookahead is not empty, and if the file
    still has unread bytes the lookahead holds at least 16 bytes and
    [lookahead_size] is its size. *)
Lemma refill_tidy (st : Loop.state) :
  tidy st ->
  let out := refill_out self st in
  let lookahead := Loop.lookahead_buffer st ++ out in
  lookahead <> []
  /\ (skipn (length out) (Loop.file st) <> [] ->
      match out with
      | [] => Loop.lookahead_size st
      | _ :: _ => lookahead_size self
      end = Z.of_nat (length lookahead)
      /\ (16 <= length lookahead)%nat).
Proof.
  intros [Hne Hls] out lookahead.
  destruct (refill_split self st) as (_ & Hfile & Hneg & Hpos).
  fold out in Hfile, Hneg, Hpos.
  assert (HL : lookahead_size self = requested_lookahead) by reflexivity.
  rewrite HL in *. unfold lookahead.
  destruct (Loop.file st) as [|f0 frest] eqn:Ef.
  - destruct out; [|discriminate].
    rewrite app_nil_r in *. split; [exact Hne|].
    intros Hrest. now destruct Hrest.
  - specialize (Hls ltac:(discriminate)).
    assert (Hsk : length (skipn (length out) (f0 :: frest))
                  = (length (f0 :: frest) - length out)%nat)
      by apply length_skipn.
    destruct (Z_lt_ge_dec (requested_lookahead - Loop.lookahead_size st) 0)
      as [Hlt|Hge].
    + rewrite (Hneg Hlt) in *. split.
      * intros E. apply app_eq_nil in E. destruct E as [_ E]. discriminate.
      * intros Hrest. rewrite skipn_all in Hrest. now destruct Hrest.
    + specialize (Hpos ltac:(lia)). split.
      * intros E. apply app_eq_nil in E. destruct E as [E1 E2].
        rewrite E1, E2 in *. cbn [length] in *. lia.
      * intros Hrest.
        assert (length (skipn (length out) (f0 :: frest)) <> 0)%nat
          by (destruct (skipn (length out) (f0 :: frest));
              [contradiction|discriminate]).
        rewrite length_app.
        destruct out as [|o0 orest]; cbn [length] in *; lia.
Qed.

Lemma encode_body_good (st : Loop.state) :
  Inv self input st -> tidy st ->
  (exists st', encode_body self st = Ok (Continue st') /\ tidy st')
  \/ (exists bitarr,
        encode_body self st = Ok (Break (tobytes (fill bitarr)))
        /\ decoded bitarr input).
Proof.
  intros HI Ht.
  destruct (refill_tidy st Ht) as [Hne Hrest].
  destruct (refill_split self st) as (Hre & _).
  set (out := refill_out self st) in *.
  set (lookahead := Loop.lookahead_buffer st ++ out) in *.
  set (file := skipn (length out) (Loop.file st)) in *.
  assert (Hfit : window_size self <= 255)
    by (unfold self, init, max_window_size; simpl; lia).
  destruct (do_encoding_ok (Loop.bitarr st) (Loop.window_buffer st)
                           lookahead Hfit Hne) as (b0 & c0 & Hdo).
  assert (Hbody : exists r, encode_body self st = Ok r).
  { unfold encode_body. rewrite Hre, Hdo. cbn [bind]. eauto. }
  destruct Hbody as [r Hbody]. rewrite Hbody.
  destruct (encode_body_run st r HI Hbody)
    as (processed & bitarr' & c & Hin & HW & Hwin & Hc & Hlen & Hdec & Hr).
  fold out lookahead file in Hin, Hlen, Hdec, Hr.
  pose proof (length_skipn (Z.to_nat c) lookahead) as Hsk.
  pose proof (firstn_skipn (Z.to_nat c) lookahead) as Hall.
  destruct (skipn (Z.to_nat c) lookahead) as [|x rest] eqn:Hskip.
  - right. exists bitarr'. split; [now rewrite Hr|].
    rewrite app_nil_r in Hall. rewrite Hall in Hdec.
    destruct file as [|f0 frest] eqn:Ef.
    + rewrite Hin, app_nil_r. exact Hdec.
    + destruct (Hrest ltac:(discriminate)) as [_ H16].
      cbn [length] in Hsk. lia.
  - left. eexists. split; [now rewrite Hr|].
    split; cbn [Loop.lookahead_buffer Loop.file Loop.lookahead_size].
    + discriminate.
    + intros Hfile. destruct (Hrest Hfile) as [-> _].
      rewrite Hsk. lia.
Qed.

Lemma encode_loop_good (fuel : nat) :
  forall st,
    Inv self input st -> tidy st ->
    (length (Loop.lookahead_buffer st) + length (Loop.file st) < fuel)%nat ->
    exists bitarr,
      encode_loop fuel self st = Some (Ok (tobytes (fill bitarr)))
      /\ decoded bitarr input.
Proof.
  induction fuel as [|fuel IH]; intros st HI Ht Hfuel; [lia|].
  cbn [encode_loop].
  destruct (encode_body_good st HI Ht)
    as [(st' & Hbody & Ht') | (bitarr & Hbody & Hdec)]; rewrite Hbody.
  - destruct (Inv_next st st' HI Hbody) as [HI' Hless].
    apply IH; [assumption|assumption|lia].
  - eauto.
Qed.

Lemma encode_good :
  (W < length input)%nat ->
  exists bitarr,
    encode self input = Some (Ok (tobytes (fill bitarr)))
    /\ decoded bitarr input.
Proof.
  intros Hlong. rewrite encode_eq.
  pose proof (length_skipn W input) as Hsk.
  apply encode_loop_good.
  - apply Inv_initial.
  - split; cbn [initial Loop.lookahead_buffer Loop.file Loop.lookahead_size app].
    + intros E. rewrite E in Hsk. cbn [length] in Hsk. lia.
    + reflexivity.
  - cbn [initial Loop.lookahead_buffer Loop.file length]. lia.
Qed.

End GoodConfiguration.

End Encoder.

(** X1.  Round trip.  For a [LempelZiv] object built with a window size of
    at most 255 and a lookahead size that is [-1] (read everything) or
    between 16 and [max_read_size], and an input of more than 255 bytes
    that is valid UTF-8, [encode] writes a file and [decode] of that
    file writes the input back.  With these sizes every [file.read] of
    the run gets a size it accepts, and no match is longer than the 255
    bytes of the window. *)
Theorem encode_decode_roundtrip (lookahead_size window_size : Z) (input : bytes) :
  window_size <= 255 ->
  lookahead_size = -1 \/ 16 <= lookahead_size <= max_read_size ->
  (255 < length input)%nat ->
  Py.utf8_valid input = true ->
  exists written,
    encode (init lookahead_size window_size) input = Some (Ok written)
    /\ decode (init lookahead_size window_size) written = Some (Ok input).
Proof.
  intros Hw Hl Hlong Hutf.
  assert (Hl' : lookahead_size < 0 \/ 16 <= lookahead_size) by lia.
  destruct (encode_good lookahead_size window_size input Hw Hl') as (bitarr & He & Hd).
  - unfold init, max_window_size. simpl. lia.
  - exists (tobytes (fill bitarr)). split; [exact He|].
    rewrite (decode_decoded _ bitarr input Hd). now rewrite Hutf.
Qed.

(** The round trip on the 300 bytes ["a"]. *)
Lemma encode_decode_roundtrip_witness :
  exists written,
    encode default run_of_a = Some (Ok written)
    /\ decode default written = Some (Ok run_of_a).
Proof.
  apply (encode_decode_roundtrip 20 100 run_of_a).
  - lia.
  - right. unfold max_read_size. lia.
  - vm_compute. lia.
  - vm_compute. reflexivity.
Defined.

(** C1, at a failing input.  The eight bytes ["abababab"] are valid
    UTF-8, and [encode] with the default configuration ends with an
    [IndexError] on them and writes nothing, so there is no stream to
    decode. *)
Theorem round_trip_fails_on_short_input :
  Py.utf8_valid (list_byte_of_string "abababab") = true
  /\ encode default (list_byte_of_string "abababab") = Some (Raise IndexError).
Proof. split; vm_compute; reflexivity. Qed.

(** C3, at a failing input.  A requested window size of 300 is kept as
    it is, above 255; on [far_match_input] the best match is then at
    offset 0, its distance 300 does not fit one byte, and [encode] ends
    with an [OverflowError]. *)
Theorem window_size_exceeds_255 :
  window_size (init 20 300) = 300
  /\ longest_substring (init 20 300) (firstn 300 far_match_input)
                       (skipn 300 far_match_input) = (0%nat, 2%nat)
  /\ encode (init 20 300) far_match_input = Some (Raise OverflowError).
Proof. repeat split; vm_compute; reflexivity. Qed.

(** C4, at the example input.  With window size 255 and lookahead size
    20 the seeding of the window writes the eight bytes of ["abababab"]
    as eight Literals, 72 bits, which would decode to ["abababab"]; but
    [encode] then ends with an [IndexError] in the first iteration of
    its loop and writes no file. *)
Theorem abababab_example :
  let input := list_byte_of_string "abababab" in
  encode (init 20 255) input = Some (Raise IndexError)
  /\ exists bitarr,
       literal_map [] input = Ok bitarr
       /\ length bitarr = 72%nat
       /\ decode (init 20 255) (tobytes (fill bitarr)) = Some (Ok input).
Proof.
  split; [vm_compute; reflexivity|].
  eexists. split; [vm_compute; reflexivity|].
  split; vm_compute; reflexivity.
Qed.




(** C9.  At the top of any iteration of a run of [encode], with
    [lookahead] the refilled lookahead, [(offset, len)] the result of the
    match finder, [distance = window_size - offset] and [c] the clamped
    length: if a Pointer is written ([c > 1]) then [c <= distance], the
    distance is between 1 and [window_size], and the decoder's copy for
    that distance and length, applied to the input processed so far,
    yields exactly the [c] bytes the encoder takes from the lookahead. *)
Theorem pointer_distance_covers_length (lookahead_size window_size : Z)
    (input : bytes) (st : Loop.state)
    (lookahead file : bytes) (lookahead_size' : Z) (offset len : nat) :
  let self := init lookahead_size window_size in
  reachable self input st ->
  refill self st = (lookahead, lookahead_size', file) ->
  longest_substring self (Loop.window_buffer st) lookahead = (offset, len) ->
  let distance := LempelZiv.window_size self - Z.of_nat offset in
  let c := Z.min (Z.of_nat len) (max_copy_length self) in
  1 < c ->
  c <= distance
  /\ 1 <= distance <= LempelZiv.window_size self
  /\ forall processed,
       input = processed ++ lookahead ++ file ->
       copy_string processed distance c = firstn (Z.to_nat c) lookahead.
Proof.
  intros self Hreach Hrefill Hmatch distance c Hc.
  destruct (reachable_Inv _ _ _ _ Hreach) as (processed0 & Hin & Hwin & Hfull & _).
  fold self in Hwin, Hfull.
  destruct (refill_split self st) as (Hre & Hfile & _).
  rewrite Hrefill in Hre. injection Hre as Hlook _ Hrest.
  destruct (window_size_W lookahead_size window_size) as [HWz HW255].
  fold self in HWz, HW255.
  destruct (longest_substring_best self (Loop.window_buffer st) lookahead
              ltac:(lia)) as (i & Hbest & Hi & _).
  rewrite Hmatch in Hbest. unfold match_count in Hbest.
  injection Hbest as Hoff Hlen. subst i.
  subst distance.
  destruct (matching_characters_common (skipn offset (Loop.window_buffer st))
                                       lookahead) as (_ & Hn & _).
  rewrite <- Hlen in Hn.
  assert (HW : (Z.to_nat (LempelZiv.window_size self) <= length processed0)%nat).
  { destruct Hfull as [HW|[Hlb Hf]]; [exact HW|].
    rewrite Hf in Hfile. rewrite Hlook, Hlb in Hn.
    destruct (refill_out self st); [|discriminate].
    cbn [app length] in Hn. lia. }
  assert (Hin0 : input = processed0 ++ lookahead ++ file).
  { rewrite Hin, Hfile, Hlook, Hrest. now rewrite <- app_assoc. }
  rewrite Hwin in *.
  destruct (pointer_copy lookahead_size window_size processed0 lookahead offset c
                         HW Hi ltac:(lia) ltac:(fold self; lia)) as [Hle Hcopy].
  fold self in Hle, Hcopy.
  split; [exact Hle|]. split; [lia|].
  intros processed Hp. rewrite Hin0 in Hp.
  apply app_inv_tail in Hp. now subst processed.
Qed.

(** The first iteration on 300 bytes ["a"]: a copy of 15 bytes at
    distance 255. *)
Lemma pointer_distance_covers_length_witness :
  copy_string (firstn 255 run_of_a) 255 15 = repeat "a"%byte 15.
Proof.
  assert (Hreach : reachable default run_of_a run_of_a_initial).
  { apply reachable_initial; vm_compute; reflexivity. }
  destruct (pointer_distance_covers_length 20 100 run_of_a run_of_a_initial
              (repeat "a"%byte 20) (repeat "a"%byte 25) 20 0 20
              Hreach) as (_ & _ & Hcopy).
  - vm_compute. reflexivity.
  - vm_compute. reflexivity.
  - vm_compute. reflexivity.
  - apply (Hcopy (firstn 255 run_of_a)). vm_compute. reflexivity.
Defined.

(** C10.  For a configuration whose sizes [file.read] accepts (a
    lookahead size that is [-1] or between 0 and [max_read_size], a
    window size of at most [max_read_size]) and an input no longer than
    the effective window size, the empty input included: the initial
    read takes the whole input and leaves the file exhausted, the
    refill of the first iteration leaves
    the lookahead empty, the token step raises [IndexError] on it, and
    so [encode] ends with [IndexError], before the stop condition that
    would write the output file. *)
Theorem encode_short_input_raises (lookahead_size window_size : Z)
    (input : bytes) :
  let self := init lookahead_size window_size in
  -1 <= lookahead_size <= max_read_size ->
  window_size <= max_read_size ->
  Z.of_nat (length input) <= LempelZiv.window_size self ->
  Py.read (LempelZiv.window_size self) input = (input, [])
  /\ (forall bitarr, refill self (initial input [] bitarr) = ([], 0, []))
  /\ (forall bitarr, do_encoding self bitarr input [] = Raise IndexError)
  /\ encode self input = Some (Raise IndexError).
Proof.
  intros self _ _ Hlen.
  assert (Hread : Py.read (LempelZiv.window_size self) input = (input, [])).
  { unfold Py.read.
    replace (LempelZiv.window_size self <? 0) with false
      by (symmetry; apply Z.ltb_ge; lia).
    now rewrite firstn_all2, skipn_all2 by lia. }
  assert (Hrefill : forall bitarr,
             refill self (initial input [] bitarr) = ([], 0, [])).
  { intros bitarr. unfold refill, Py.read, initial.
    cbn [Loop.file Loop.lookahead_size Loop.lookahead_buffer].
    destruct (_ <? 0); [reflexivity|].
    now rewrite firstn_nil, skipn_nil. }
  assert (Hraise : forall bitarr, do_encoding self bitarr input [] = Raise IndexError)
    by (intros bitarr; apply do_encoding_nil).
  split; [exact Hread|]. split; [exact Hrefill|]. split; [exact Hraise|].
  unfold encode. rewrite Hread, literal_map_bits.
  cbn [encode_loop]. unfold encode_body.
  fold (initial input [] ([] ++ flat_map (fun c => false :: byte_bits c) input)).
  rewrite Hrefill. cbn [initial Loop.bitarr Loop.window_buffer].
  now rewrite Hraise.
Qed.

(** The empty input and the eight bytes ["abababab"] under the default
    configuration. *)
Lemma encode_short_input_raises_witness :
  encode default [] = Some (Raise IndexError)
  /\ encode default (list_byte_of_string "abababab") = Some (Raise IndexError).
Proof.
  split.
  - apply (encode_short_input_raises 20 100 []).
    + unfold max_read_size. lia.
    + unfold max_read_size. lia.
    + vm_compute. discriminate.
  - apply (encode_short_input_raises 20 100 (list_byte_of_string "abababab")).
    + unfold max_read_size. lia.
    + unfold max_read_size. lia.
    + vm_compute. discriminate.
Defined.

(** * Further properties of the encoder and the decoder *)

(** ** What is written decodes to a prefix of the input *)

(** X2.  For every configuration the constructor can build and every
    input: if [encode] writes a file, then the decoder's output on that
    file is a prefix of the input, and [decode] writes it when it is
    valid UTF-8 and raises [UnicodeDecodeError] otherwise.  Nothing but
    bytes of the input, in order, ever comes back. *)
Theorem encode_decodes_to_prefix (lookahead_size window_size : Z)
    (input written : bytes) :
  encode (init lookahead_size window_size) input = Some (Ok written) ->
  exists out unread,
    input = out ++ unread
    /\ decode (init lookahead_size window_size) written
       = Some (if Py.utf8_valid out then Ok out else Raise UnicodeDecodeError).
Proof.
  intros Henc. rewrite encode_eq in Henc.
  destruct (encode_loop_prefix lookahead_size window_size input written _ _
              (Inv_initial lookahead_size window_size input) Henc)
    as (bitarr & processed & unread & -> & Hdec & Hin).
  exists processed, unread. split; [exact Hin|].
  now apply decode_decoded.
Qed.

(** With a lookahead of one byte, 300 bytes ["a"] come back as a
    prefix. *)
Lemma encode_decodes_to_prefix_witness :
  exists written out unread,
    encode (init 1 100) run_of_a = Some (Ok written)
    /\ run_of_a = out ++ unread
    /\ decode (init 1 100) written
       = Some (if Py.utf8_valid out then Ok out else Raise UnicodeDecodeError).
Proof.
  assert (E : {written | encode (init 1 100) run_of_a = Some (Ok written)})
    by (eexists; vm_compute; reflexivity).
  destruct E as [written E].
  destruct (encode_decodes_to_prefix 1 100 run_of_a written E)
    as (out & unread & Hin & Hdec).
  exists written, out, unread. auto.
Defined.

(** ** Streams of Literals *)

Lemma literals_length (bytestring : bytes) :
  length (literals bytestring) = (9 * length bytestring)%nat.
Proof.
  unfold literals.
  induction bytestring as [|c rest IH]; [reflexivity|].
  cbn [flat_map]. rewrite length_app. cbn [length].
  rewrite byte_bits_length, IH. lia.
Qed.

Lemma decoded_app_literals (bitarr : bitarray) (processed bytestring : bytes) :
  decoded bitarr processed ->
  decoded (bitarr ++ literals bytestring) (processed ++ bytestring).
Proof. unfold literals. apply decoded_literals. Qed.

Lemma decoded_only_literals (bytestring : bytes) :
  decoded (literals bytestring) bytestring.
Proof. apply (decoded_app_literals [] [] bytestring decoded_nil). Qed.

(** X3.  [literal_map] never raises, it writes nine bits per byte, and
    the file made of those bits decodes to the bytes: [decode] writes
    them when they are valid UTF-8 and raises [UnicodeDecodeError]
    otherwise. *)
Theorem literal_map_decodes (self : LempelZiv.t) (bytestring : bytes) :
  exists bitarr,
    literal_map [] bytestring = Ok bitarr
    /\ length bitarr = (9 * length bytestring)%nat
    /\ decode self (tobytes (fill bitarr))
       = Some (if Py.utf8_valid bytestring then Ok bytestring
               else Raise UnicodeDecodeError).
Proof.
  exists (literals bytestring).
  split; [now rewrite literal_map_bits|].
  split; [apply literals_length|].
  apply decode_decoded, decoded_only_literals.
Qed.

(** ** A lookahead of one byte *)

Lemma firstn_S_skipn {A : Type} (n : nat) (l rest : list A) (x : A) :
  skipn n l = x :: rest -> firstn (S n) l = firstn n l ++ [x].
Proof.
  revert l. induction n as [|n IH]; intros l Hl.
  - cbn in Hl. now subst l.
  - destruct l as [|y l]; [discriminate|].
    cbn [skipn] in Hl. cbn [firstn app]. f_equal.
    change (firstn (S n) l = firstn n l ++ [x]). now apply IH.
Qed.

(** X4.  With [lookahead_size = 1] the loop runs once: for an input
    longer than the window, [encode] writes the first [window_size + 1]
    bytes as Literals and stops, and the file decodes to those bytes
    only.  Every byte after them is dropped without an error. *)
Theorem lookahead_of_one_truncates (window_size : Z) (input : bytes) :
  let self := init 1 window_size in
  let W := Z.to_nat (LempelZiv.window_size self) in
  (W < length input)%nat ->
  encode self input = Some (Ok (tobytes (fill (literals (firstn (S W) input)))))
  /\ decode self (tobytes (fill (literals (firstn (S W) input))))
     = Some (if Py.utf8_valid (firstn (S W) input)
             then Ok (firstn (S W) input) else Raise UnicodeDecodeError).
Proof.
  intros self W Hlong.
  split; [|apply decode_decoded, decoded_only_literals].
  unfold self. rewrite encode_eq. fold self W.
  destruct (window_size_W 1 window_size) as [HWz HW255]. fold self W in HWz, HW255.
  pose proof (length_skipn W input) as Hsk.
  destruct (skipn W input) as [|x rest] eqn:Hfile; [cbn [length] in Hsk; lia|].
  cbn [encode_loop]. unfold encode_body.
  assert (Hrefill : forall bitarr,
             refill self (initial (firstn W input) (x :: rest) bitarr)
             = ([x], 1, rest)) by reflexivity.
  rewrite Hrefill. cbn [initial Loop.bitarr Loop.window_buffer].
  unfold self. rewrite do_encoding_eq. fold self.
  destruct (longest_substring self (firstn W input) [x]) as [offset len].
  cbv beta iota zeta.
  replace (1 <? Z.min (Z.of_nat len) (max_copy_length self)) with false.
  2:{ symmetry. apply Z.ltb_ge.
      assert (max_copy_length self = 1) by reflexivity. lia. }
  cbn [bind]. rewrite update_and_stop_eq by lia.
  change (Z.to_nat 1) with 1%nat. cbn [skipn].
  rewrite (firstn_S_skipn W input rest x Hfile).
  unfold literals. rewrite flat_map_app. cbn [flat_map]. now rewrite app_nil_r.
Qed.

(** 300 bytes ["a"] with the default window: 256 of them come back. *)
Lemma lookahead_of_one_truncates_witness :
  decode (init 1 100) (tobytes (fill (literals (firstn 256 run_of_a))))
  = Some (Ok (repeat "a"%byte 256)).
Proof.
  destruct (lookahead_of_one_truncates 100 run_of_a) as [_ Hdec].
  - vm_compute. lia.
  - exact Hdec.
Defined.

(** ** Payloads that are not text *)

(** X5.  Under the conditions of the round trip (window size at most
    255, lookahead size [-1] or between 16 and [max_read_size], more
    than 255 bytes) but with an input that is not valid UTF-8, [encode]
    still writes a file, and [decode] of
    that file raises [UnicodeDecodeError]: the bytes are reconstructed
    and then refused by [outBuffer.decode('utf-8')]. *)
Theorem decode_refuses_binary_payload (lookahead_size window_size : Z)
    (input : bytes) :
  window_size <= 255 ->
  lookahead_size = -1 \/ 16 <= lookahead_size <= max_read_size ->
  (255 < length input)%nat ->
  Py.utf8_valid input = false ->
  exists written,
    encode (init lookahead_size window_size) input = Some (Ok written)
    /\ decode (init lookahead_size window_size) written
       = Some (Raise UnicodeDecodeError).
Proof.
  intros Hw Hl Hlong Hutf.
  assert (Hl' : lookahead_size < 0 \/ 16 <= lookahead_size) by lia.
  destruct (encode_good lookahead_size window_size input Hw Hl') as (bitarr & He & Hd).
  - unfold init, max_window_size. simpl. lia.
  - exists (tobytes (fill bitarr)). split; [exact He|].
    rewrite (decode_decoded _ bitarr input Hd). now rewrite Hutf.
Qed.

(** 300 bytes 255 under the default configuration. *)
Lemma decode_refuses_binary_payload_witness :
  exists written,
    encode default run_of_ff = Some (Ok written)
    /\ decode default written = Some (Raise UnicodeDecodeError).
Proof.
  apply (decode_refuses_binary_payload 20 100 run_of_ff).
  - lia.
  - right. unfold max_read_size. lia.
  - vm_compute. lia.
  - vm_compute. reflexivity.
Defined.

(** ** Pointers with distance 0 *)

Lemma copy_string_0_0 (outBuffer : bytes) : copy_string outBuffer 0 0 = outBuffer.
Proof.
  unfold copy_string. cbn [Z.eqb Z.opp].
  now rewrite slice_from by lia.
Qed.

Lemma decoded_zero_pointer (bitarr : bitarray) (processed : bytes) :
  decoded bitarr processed ->
  decoded (bitarr ++ zero_pointer) (processed ++ processed).
Proof.
  intros Hdec tail r Hr. rewrite <- app_assoc. apply Hdec.
  change (zero_pointer ++ tail)
    with (true :: byte_bits "000"%byte ++ be_bits 4 0 ++ tail).
  apply decodes_to_pointer; [lia|].
  change (byte_val "000"%byte) with 0. now rewrite copy_string_0_0.
Qed.

Lemma concat_repeat_add (l : bytes) (a b : nat) :
  concat (repeat l (a + b)) = concat (repeat l a) ++ concat (repeat l b).
Proof. now rewrite repeat_app, concat_app. Qed.

Lemma decoded_zero_pointers (bytestring : bytes) (n : nat) :
  forall bitarr k,
    decoded bitarr (concat (repeat bytestring k)) ->
    decoded (bitarr ++ concat (repeat zero_pointer n))
            (concat (repeat bytestring (k * 2 ^ n))).
Proof.
  induction n as [|n IH]; intros bitarr k Hdec.
  - cbn [repeat concat Nat.pow]. now rewrite app_nil_r, Nat.mul_1_r.
  - cbn [repeat concat]. rewrite app_assoc.
    replace (k * 2 ^ S n)%nat with ((k + k) * 2 ^ n)%nat by (cbn [Nat.pow]; lia).
    apply IH. rewrite concat_repeat_add. now apply decoded_zero_pointer.
Qed.

(** X6.  A Pointer with distance 0 and length 0 makes the decoder
    append its whole output to itself: [outBuffer[-0:]] is all of
    [outBuffer].  A file of the Literals of [bytestring] followed by [n]
    such Pointers, [9 * len(bytestring) + 13 * n] bits before padding,
    therefore decodes to [2 ^ n] copies of [bytestring]. *)
Theorem zero_pointers_double_the_output (self : LempelZiv.t)
    (bytestring : bytes) (n : nat) :
  let stream := literals bytestring ++ concat (repeat zero_pointer n) in
  let out := concat (repeat bytestring (2 ^ n)) in
  length stream = (9 * length bytestring + 13 * n)%nat
  /\ length out = (length bytestring * 2 ^ n)%nat
  /\ decode self (tobytes (fill stream))
     = Some (if Py.utf8_valid out then Ok out else Raise UnicodeDecodeError).
Proof.
  intros stream out. subst stream out.
  split; [|split].
  - rewrite length_app, literals_length. f_equal.
    induction n as [|n IH]; [reflexivity|].
    cbn [repeat concat]. rewrite length_app, IH. cbn. lia.
  - generalize (2 ^ n)%nat as m. intros m.
    induction m as [|m IH]; [cbn; lia|].
    cbn [repeat concat]. rewrite length_app, IH. lia.
  - apply decode_decoded.
    replace (2 ^ n)%nat with (1 * 2 ^ n)%nat by lia.
    apply decoded_zero_pointers.
    cbn [repeat concat]. rewrite app_nil_r. apply decoded_only_literals.
Qed.

(** ** The fields [make_pointer] accepts *)

Lemma pos_digits_length (p : positive) :
  forall acc, length (Py.pos_digits p acc) = (Pos.size_nat p + length acc)%nat.
Proof.
  induction p as [p IH|p IH|]; intros acc; cbn [Py.pos_digits Pos.size_nat].
  - rewrite IH. cbn [length]. lia.
  - rewrite IH. cbn [length]. lia.
  - cbn [length]. lia.
Qed.

Lemma size_nat_ge_5 (p : positive) : (16 <= p)%positive -> (5 <= Pos.size_nat p)%nat.
Proof.
  intros Hp.
  do 4 (destruct p as [p|p|]; [| |lia]); cbn [Pos.size_nat];
    destruct p; cbn [Pos.size_nat]; lia.
Qed.

(** X7.  [make_pointer] raises [OverflowError] exactly when the
    distance is outside [0, 255]; the length is never checked: with a
    distance in range and a length of 16 or more it returns normally and
    has written more than the 13 bits of a Pointer, because [lengther]
    pads to four bits but never cuts. *)
Theorem make_pointer_field_checks (bitarr : bitarray)
    (copy_distance copy_length : Z) :
  (make_pointer bitarr copy_distance copy_length = Raise OverflowError
   <-> copy_distance < 0 \/ 255 < copy_distance)
  /\ (0 <= copy_distance <= 255 -> 16 <= copy_length ->
      exists bitarr',
        make_pointer bitarr copy_distance copy_length = Ok bitarr'
        /\ (length bitarr + 13 < length bitarr')%nat).
Proof.
  split.
  - unfold make_pointer. split.
    + intros Hraise.
      destruct (Z_lt_ge_dec copy_distance 0) as [|Hge]; [now left|].
      destruct (Z_lt_ge_dec 255 copy_distance) as [|Hle]; [now right|].
      destruct (to_bytes1_in_range copy_distance ltac:(lia)) as (c & Hc & _).
      rewrite Hc in Hraise. discriminate.
    + intros Hout. unfold Py.to_bytes1.
      replace ((0 <=? copy_distance) && (copy_distance <=? 255)) with false;
        [reflexivity|].
      symmetry. apply andb_false_iff.
      destruct Hout; [left; apply Z.leb_gt|right; apply Z.leb_gt]; lia.
  - intros Hd Hl.
    destruct (to_bytes1_in_range copy_distance Hd) as (c & Hc & _).
    unfold make_pointer. rewrite Hc. cbn [bind]. eexists. split; [reflexivity|].
    unfold lengther. rewrite !length_app, frombytes_one, byte_bits_length.
    cbn [length].
    destruct copy_length as [|p|p]; try lia.
    cbn [Py.bin_values]. rewrite pos_digits_length.
    pose proof (size_nat_ge_5 p ltac:(lia)). cbn [length]. lia.
Qed.

(** ** [matching_characters] on its own *)

Lemma matching_characters_sym (s1 : bytes) :
  forall s2, matching_characters s1 s2 = matching_characters s2 s1.
Proof.
  induction s1 as [|c1 t1 IH]; intros [|c2 t2]; cbn [matching_characters];
    try reflexivity.
  destruct (Byte.eqb c1 c2) eqn:E.
  - apply Byte.byte_dec_bl in E. subst c2.
    rewrite (Byte.byte_dec_lb (eq_refl c1)). now rewrite IH.
  - destruct (Byte.eqb c2 c1) eqn:E'; [|reflexivity].
    apply Byte.byte_dec_bl in E'. subst c2.
    rewrite (Byte.byte_dec_lb (eq_refl c1)) in E. discriminate.
Qed.

Lemma matching_characters_prefix (s : bytes) :
  forall rest, matching_characters s (s ++ rest) = length s.
Proof.
  induction s as [|c t IH]; intros rest; [reflexivity|].
  cbn [matching_characters app length].
  rewrite (Byte.byte_dec_lb (eq_refl c)). now rewrite IH.
Qed.

(** X8.  For a first argument of at most [max_match_depth] bytes (so
    that no call nests deeper than the interpreter allows),
    [matching_characters] does not depend on the order of its
    arguments, never exceeds the length of either, is the whole length
    when one argument starts with the other, and is 0 exactly when an
    argument is empty or the first bytes differ. *)
Theorem matching_characters_facts (s1 s2 rest : bytes) :
  (length s1 <= max_match_depth)%nat ->
  matching_characters s1 s2 = matching_characters s2 s1
  /\ (matching_characters s1 s2 <= Nat.min (length s1) (length s2))%nat
  /\ matching_characters s1 (s1 ++ rest) = length s1
  /\ (matching_characters s1 s2 = 0%nat
      <-> s1 = [] \/ s2 = [] \/ hd_error s1 <> hd_error s2).
Proof.
  intros _.
  split; [apply matching_characters_sym|].
  split.
  { destruct (matching_characters_common s1 s2) as (H1 & H2 & _). lia. }
  split; [apply matching_characters_prefix|].
  destruct s1 as [|c1 t1]; [cbn; tauto|].
  destruct s2 as [|c2 t2]; [cbn; tauto|].
  cbn [matching_characters hd_error].
  destruct (Byte.eqb c1 c2) eqn:E.
  - apply Byte.byte_dec_bl in E. subst c2. split; [discriminate|].
    intros [H|[H|H]]; [discriminate|discriminate|now destruct H].
  - split; [|reflexivity]. intros _. right. right.
    intros [= ->]. rewrite (Byte.byte_dec_lb (eq_refl c2)) in E. discriminate.
Qed.

(** The example of the docstring: ['hello'] and ['hell'] share four
    bytes, in either order. *)
Lemma matching_characters_facts_witness :
  matching_characters (list_byte_of_string "hell") (list_byte_of_string "hello")
  = 4%nat
  /\ matching_characters (list_byte_of_string "hello") (list_byte_of_string "hell")
     = 4%nat.
Proof.
  destruct (matching_characters_facts
              (list_byte_of_string "hell") (list_byte_of_string "hello")
              (list_byte_of_string "o"))
    as (Hsym & _ & Hprefix & _).
  - vm_compute. lia.
  - split; [exact Hprefix|]. rewrite <- Hsym. exact Hprefix.
Defined.

(** ** [length_decode] on any number of bits *)

Lemma length_decode_from (bits : bitarray) :
  forall acc,
    fold_left (fun total (c : bool) =>
                 let total := total * 2 in if c then total + 1 else total)
              bits acc
    = acc * 2 ^ Z.of_nat (length bits) + length_decode bits.
Proof.
  unfold length_decode.
  induction bits as [|d bits IH]; intros acc; cbn [fold_left length].
  - rewrite Z.pow_0_r. lia.
  - rewrite Nat2Z.inj_succ, Z.pow_succ_r by lia.
    rewrite IH. rewrite (IH (if d then 0 * 2 + 1 else 0 * 2)).
    destruct d; ring.
Qed.

Lemma length_decode_cons (c : bool) (bits : bitarray) :
  length_decode (c :: bits)
  = (if c then 1 else 0) * 2 ^ Z.of_nat (length bits) + length_decode bits.
Proof.
  unfold length_decode at 1. cbn [fold_left].
  rewrite length_decode_from. now destruct c.
Qed.

Lemma be_bits_S (n : nat) (v : Z) :
  be_bits (S n) v = Z.testbit v (Z.of_nat n) :: be_bits n v.
Proof.
  unfold be_bits. rewrite seq_S, rev_app_distr. reflexivity.
Qed.

(** X9.  [length_decode] reads any run of bits as a binary number,
    first bit most significant: the result is between 0 and
    [2 ^ len(bits) - 1], and on the [n] low bits of a number [v] written
    most significant first it is [v mod 2 ^ n].  On the four bits of a
    Pointer it therefore returns a length between 0 and 15. *)
Theorem length_decode_binary (bits : bitarray) (n : nat) (v : Z) :
  0 <= length_decode bits < 2 ^ Z.of_nat (length bits)
  /\ length_decode (be_bits n v) = v mod 2 ^ Z.of_nat n.
Proof.
  split.
  - induction bits as [|c bits IH].
    + cbn. lia.
    + rewrite length_decode_cons. cbn [length].
      rewrite Nat2Z.inj_succ, Z.pow_succ_r by lia.
      destruct c; lia.
  - induction n as [|n IH].
    + cbn. now rewrite Z.mod_1_r.
    + rewrite be_bits_S, length_decode_cons, be_bits_length, IH.
      rewrite Nat2Z.inj_succ, Z.pow_succ_r by lia.
      assert (Hpos : 0 < 2 ^ Z.of_nat n) by (apply Z.pow_pos_nonneg; lia).
      rewrite (Z.mul_comm 2), Z.rem_mul_r by lia.
      destruct (Z.testbit v (Z.of_nat n)) eqn:E.
      * apply Z.testbit_true in E; [|lia]. rewrite E. lia.
      * apply Z.testbit_false in E; [|lia]. rewrite E. lia.
Qed.

(** ** The size of what [encode] writes *)

Lemma tobytes_length (k : nat) :
  forall l : bitarray, length l = (8 * k)%nat -> length (tobytes l) = k.
Proof.
  induction k as [|k IH]; intros l Hl.
  - destruct l; [reflexivity|discriminate].
  - do 8 (destruct l as [|? l]; [simpl in Hl; lia|]).
    cbn [tobytes length]. f_equal. apply IH. simpl in Hl. lia.
Qed.

Lemma fill_size (l : bitarray) :
  (length l <= 8 * length (tobytes (fill l)) < length l + 8)%nat.
Proof.
  destruct (fill_length l) as [k Hk].
  rewrite (tobytes_length k _ Hk).
  destruct (fill_padding l) as (pad & Hfill & Hpad).
  rewrite Hfill, length_app in Hk. lia.
Qed.

Section EncoderSize.

Variables requested_lookahead requested_window : Z.

Let self : LempelZiv.t := init requested_lookahead requested_window.

(** One token takes at least one byte of the lookahead, no more than
    it holds, and costs at most nine bits per byte taken. *)
Lemma do_encoding_cost (bitarr bitarr' : bitarray) (window lookahead : bytes)
    (c : Z) :
  do_encoding self bitarr window lookahead = Ok (bitarr', c) ->
  1 <= c
  /\ (Z.to_nat c <= length lookahead)%nat
  /\ (length bitarr' <= length bitarr + 9 * Z.to_nat c)%nat.
Proof.
  unfold self. rewrite do_encoding_eq. fold self.
  destruct (window_size_W requested_lookahead requested_window) as [HWz HW255].
  fold self in HWz, HW255.
  destruct (longest_substring_best self window lookahead ltac:(lia))
    as (i & -> & _).
  unfold match_count. cbv beta iota zeta.
  destruct (matching_characters_common (skipn i window) lookahead) as (_ & Hlen & _).
  remember (Z.min (Z.of_nat (matching_characters (skipn i window) lookahead))
                  (max_copy_length self)) as c' eqn:Hc'.
  destruct (1 <? c') eqn:E.
  - apply Z.ltb_lt in E.
    destruct (Py.to_bytes1 (window_size self - Z.of_nat i)) as [cd|e];
      [|discriminate].
    intros Heq. injection Heq as <- <-.
    split; [lia|]. split; [lia|].
    cbn [length]. rewrite !length_app. cbn [length].
    rewrite length_app, byte_bits_length, be_bits_length. lia.
  - destruct lookahead as [|ch t]; [discriminate|].
    intros Heq. injection Heq as <- <-. cbn [length] in *.
    split; [lia|]. split; [lia|].
    rewrite length_app. cbn [length]. rewrite byte_bits_length. lia.
Qed.

Lemma encode_loop_size (n : nat) (written : bytes) (fuel : nat) :
  forall st,
    (length (Loop.bitarr st)
     + 9 * (length (Loop.lookahead_buffer st) + length (Loop.file st))
     <= 9 * n)%nat ->
    encode_loop fuel self st = Some (Ok written) ->
    (8 * length written <= 9 * n + 7)%nat.
Proof.
  induction fuel as [|fuel IH]; intros st Hsize Hloop; [discriminate|].
  cbn [encode_loop] in Hloop. unfold encode_body in Hloop.
  destruct (refill_split self st) as (Hre & Hfile & _).
  rewrite Hre in Hloop.
  set (out := refill_out self st) in *.
  set (lookahead := Loop.lookahead_buffer st ++ out) in *.
  assert (Hla : (length lookahead + length (skipn (length out) (Loop.file st))
                 = length (Loop.lookahead_buffer st) + length (Loop.file st))%nat).
  { unfold lookahead. rewrite length_app. rewrite Hfile at 2.
    rewrite length_app. lia. }
  destruct (do_encoding self (Loop.bitarr st) (Loop.window_buffer st) lookahead)
    as [[bitarr' c]|e] eqn:Hdo; cbn [bind] in Hloop; [|discriminate].
  destruct (do_encoding_cost _ _ _ _ _ Hdo) as (Hc1 & Hc2 & Hbits).
  rewrite update_and_stop_eq in Hloop by lia.
  pose proof (length_skipn (Z.to_nat c) lookahead) as Hsk.
  destruct (skipn (Z.to_nat c) lookahead) as [|x rest] eqn:Hskip.
  - injection Hloop as <-. pose proof (fill_size bitarr'). lia.
  - apply IH in Hloop; [exact Hloop|].
    cbn [Loop.bitarr Loop.lookahead_buffer Loop.file]. lia.
Qed.

End EncoderSize.

(** X10.  Whatever the configuration, a file [encode] writes is at
    most one eighth larger than the input, rounded up to a whole byte:
    [8 * len(written) <= 9 * len(input) + 7].  Every token costs at most
    nine bits for each input byte it stands for. *)
Theorem encode_output_size (lookahead_size window_size : Z)
    (input written : bytes) :
  encode (init lookahead_size window_size) input = Some (Ok written) ->
  (8 * length written <= 9 * length input + 7)%nat.
Proof.
  intros Henc. rewrite encode_eq in Henc.
  apply (encode_loop_size lookahead_size window_size (length input) written _ _)
    in Henc; [exact Henc|].
  cbn [initial Loop.bitarr Loop.lookahead_buffer Loop.file length].
  fold (literals (firstn (Z.to_nat (LempelZiv.window_size
                                      (init lookahead_size window_size))) input)).
  rewrite literals_length, length_firstn, length_skipn. lia.
Qed.

(** 300 bytes ["a"] under the default configuration. *)
Lemma encode_output_size_witness :
  exists written,
    encode default run_of_a = Some (Ok written)
    /\ (8 * length written <= 9 * length run_of_a + 7)%nat.
Proof.
  assert (E : {written | encode default run_of_a = Some (Ok written)})
    by (eexists; vm_compute; reflexivity).
  destruct E as [written E]. exists written. split; [exact E|].
  exact (encode_output_size 20 100 run_of_a written E).
Defined.

(** ** How a run of [encode] can end *)

Section EncoderOutcome.

Variables requested_lookahead requested_window : Z.
Variable input : bytes.

Let self : LempelZiv.t := init requested_lookahead requested_window.
Let W : nat := Z.to_nat (window_size self).

(** On a lookahead that is not empty, "do the encoding" writes a token
    unless the distance does not fit one byte. *)
Lemma do_encoding_outcome (bitarr : bitarray) (window lookahead : bytes) :
  lookahead <> [] ->
  (exists bitarr' c, do_encoding self bitarr window lookahead = Ok (bitarr', c))
  \/ (do_encoding self bitarr window lookahead = Raise OverflowError
      /\ 255 < window_size self).
Proof.
  intros Hne. unfold self. rewrite do_encoding_eq. fold self.
  destruct (window_size_W requested_lookahead requested_window) as [HWz HW255].
  fold self in HWz, HW255.
  destruct (longest_substring_best self window lookahead ltac:(lia))
    as (i & -> & Hi & _).
  unfold match_count. cbv beta iota zeta.
  destruct (1 <? _).
  - destruct (Z_le_gt_dec (window_size self - Z.of_nat i) 255) as [Hle|Hgt].
    + destruct (to_bytes1_in_range (window_size self - Z.of_nat i) ltac:(lia))
        as (cd & -> & _).
      left. eauto.
    + right. rewrite to_bytes1_overflow by lia. split; [reflexivity|lia].
  - destruct lookahead; [contradiction|]. left. eauto.
Qed.

Lemma refill_fed (st : Loop.state) :
  requested_lookahead <> 0 -> fed st ->
  Loop.lookahead_buffer st ++ refill_out self st <> [].
Proof.
  intros HL Hfed E. apply app_eq_nil in E. destruct E as [Hlb Hout].
  destruct Hfed as [Hne|[Hls Hfile]]; [contradiction|].
  destruct (refill_split self st) as (_ & _ & Hneg & Hpos).
  assert (Hself : lookahead_size self = requested_lookahead) by reflexivity.
  rewrite Hself, Hls, Hout in *.
  destruct (Z_lt_ge_dec (requested_lookahead - 0) 0) as [Hlt|Hge].
  - symmetry in Hneg; auto.
  - specialize (Hpos ltac:(lia)). cbn [length] in Hpos.
    destruct (Loop.file st); [contradiction|]. cbn [length] in Hpos. lia.
Qed.

Lemma encode_body_fed (st : Loop.state) :
  requested_lookahead <> 0 -> fed st ->
  (exists r, encode_body self st = Ok r
             /\ forall st', r = Continue st' -> fed st')
  \/ (encode_body self st = Raise OverflowError /\ 255 < window_size self).
Proof.
  intros HL Hfed. pose proof (refill_fed st HL Hfed) as Hne.
  destruct (refill_split self st) as (Hre & _).
  unfold encode_body. rewrite Hre.
  destruct (do_encoding_outcome (Loop.bitarr st) (Loop.window_buffer st) _ Hne)
    as [(bitarr' & c & ->)|[-> Hbig]]; cbn [bind].
  - left. eexists. split; [reflexivity|].
    intros st'. unfold update_and_stop.
    destruct (Py.slice _ (Some c) None) as [|x rest]; [discriminate|].
    intros [= <-]. left. discriminate.
  - right. split; [reflexivity|exact Hbig].
Qed.

Lemma encode_loop_fed (fuel : nat) :
  forall st,
    requested_lookahead <> 0 -> Inv self input st -> fed st ->
    (length (Loop.lookahead_buffer st) + length (Loop.file st) < fuel)%nat ->
    exists r,
      encode_loop fuel self st = Some r
      /\ r <> Raise IndexError
      /\ r <> Raise UnicodeDecodeError
      /\ (r = Raise OverflowError -> 255 < window_size self).
Proof.
  induction fuel as [|fuel IH]; intros st HL HI Hfed Hfuel; [lia|].
  cbn [encode_loop].
  destruct (encode_body_fed st HL Hfed) as [(r & Hbody & Hnext)|[Hbody Hbig]];
    rewrite Hbody.
  - destruct r as [st'|written].
    + destruct (Inv_next _ _ _ st st' HI Hbody) as [HI' Hless].
      apply IH; auto. lia.
    + eexists. split; [reflexivity|].
      split; [discriminate|]. split; discriminate.
  - eexists. split; [reflexivity|].
    split; [discriminate|]. split; [discriminate|]. intros _. exact Hbig.
Qed.

Lemma encode_unfed :
  requested_lookahead = 0 \/ (length input <= W)%nat ->
  encode self input = Some (Raise IndexError).
Proof.
  intros Hun. unfold self. rewrite encode_eq. fold self W.
  cbn [encode_loop]. unfold encode_body.
  set (st := initial (firstn W input) (skipn W input)
                     (flat_map (fun c => false :: byte_bits c) (firstn W input))).
  destruct (refill_split self st) as (Hre & Hfile & _ & Hpos).
  rewrite Hre.
  assert (Hout : refill_out self st = []).
  { destruct Hun as [HL|Hshort].
    - assert (Hself : lookahead_size self = 0) by exact HL.
      rewrite Hself in Hpos. specialize (Hpos ltac:(cbn; lia)).
      cbn in Hpos. destruct (refill_out self st); [reflexivity|discriminate].
    - cbn [st initial Loop.file] in Hfile.
      rewrite (skipn_all2 input) in Hfile by lia.
      symmetry in Hfile. now apply app_eq_nil in Hfile. }
  rewrite Hout. cbn [st initial Loop.lookahead_buffer app].
  unfold self. now rewrite do_encoding_nil.
Qed.

End EncoderOutcome.

(** X11.  For a lookahead size that is [-1] or between 0 and
    [max_read_size] and a requested window size of at most
    [max_match_depth] (so that every [file.read] gets a size it accepts
    and no match, which the window bounds, nests calls deeper than the
    interpreter allows): every run of [encode] ends, and it ends in one
    of three ways.  It raises [IndexError] exactly when [lookahead_size]
    is 0 or the input is no longer than the window; it can raise
    [OverflowError]
    only when the requested window size is above 255; it never raises
    anything else; and so, with a window size of at most 255, a
    lookahead size other than 0 and an input longer than the window, it
    writes a file. *)
Theorem encode_outcome (lookahead_size window_size : Z) (input : bytes) :
  let self := init lookahead_size window_size in
  let W := Z.to_nat (LempelZiv.window_size self) in
  -1 <= lookahead_size <= max_read_size ->
  window_size <= Z.of_nat max_match_depth ->
  exists r,
    encode self input = Some r
    /\ (r = Raise IndexError <-> lookahead_size = 0 \/ (length input <= W)%nat)
    /\ (r = Raise OverflowError -> 255 < window_size)
    /\ r <> Raise UnicodeDecodeError
    /\ (window_size <= 255 -> lookahead_size <> 0 -> (W < length input)%nat ->
        exists written, r = Ok written).
Proof.
  intros self W _ _.
  destruct (Z.eq_dec lookahead_size 0) as [HL|HL].
  { exists (Raise IndexError).
    split; [apply encode_unfed; now left|].
    split; [tauto|]. split; [discriminate|]. split; [discriminate|].
    intros _ Hne. contradiction. }
  destruct (le_gt_dec (length input) W) as [Hshort|Hlong].
  { exists (Raise IndexError).
    split; [apply encode_unfed; now right|].
    split; [tauto|]. split; [discriminate|]. split; [discriminate|].
    intros _ _ Hlt. lia. }
  unfold self. rewrite encode_eq. fold self W.
  pose proof (length_skipn W input) as Hsk.
  destruct (encode_loop_fed lookahead_size window_size input (S (length input))
              (initial (firstn W input) (skipn W input)
                 (flat_map (fun c => false :: byte_bits c) (firstn W input)))
              HL (Inv_initial lookahead_size window_size input))
    as (r & Hr & Hidx & Huni & Hovf).
  - right. split; [reflexivity|].
    cbn [initial Loop.file]. intros E. rewrite E in Hsk. cbn [length] in Hsk. lia.
  - cbn [initial Loop.lookahead_buffer Loop.file length]. lia.
  - exists r. split; [exact Hr|]. fold self in Hovf.
    assert (Hwin : LempelZiv.window_size self = Z.max 255 window_size)
      by reflexivity.
    split; [split; [intros E; contradiction|intros [E|E]; [contradiction|lia]]|].
    split; [intros E; specialize (Hovf E); lia|].
    split; [exact Huni|].
    intros Hfit _ _.
    destruct r as [written|[| |]]; try contradiction; eauto.
    specialize (Hovf eq_refl). lia.
Qed.

(** The default configuration on 300 bytes ["a"]: a file is written. *)
Lemma encode_outcome_witness :
  exists written, encode default run_of_a = Some (Ok written).
Proof.
  destruct (encode_outcome 20 100 run_of_a) as (r & Hr & _ & _ & _ & Hok).
  - unfold max_read_size. lia.
  - vm_compute. discriminate.
  - destruct Hok as [written ->].
    + lia.
    + lia.
    + vm_compute. lia.
    + exists written. exact Hr.
Defined.

(** ** Every file decodes *)

(** X12.  The loop of [decode] ends on every file, whatever its bits:
    each iteration removes at least nine of them.  [decode] then
    either writes text or raises [UnicodeDecodeError]. *)
Theorem decode_terminates (self : LempelZiv.t) (input : bytes) :
  exists outBuffer,
    decode_loop (length (frombytes input)) (frombytes input) [] = Some outBuffer
    /\ decode self input
       = Some (if Py.utf8_valid outBuffer then Ok outBuffer
               else Raise UnicodeDecodeError).
Proof.
  pose proof (decode_loop_returns (length (frombytes input)) (frombytes input) []
                                  (le_n _)) as Hret.
  unfold decode.
  destruct (decode_loop _ _ _) as [outBuffer|]; [|contradiction].
  exists outBuffer. split; reflexivity.
Qed.

(** ** The sliding window *)

(** X13.  At the top of every iteration of a run of [encode], the
    input splits into the bytes processed so far, the lookahead buffer
    and the unread rest of the file; the window buffer is the last
    [window_size] processed bytes (all of them if there are fewer), so
    it never holds more than [window_size] bytes; and the bits written
    so far decode to exactly the processed bytes. *)
Theorem window_is_tail_of_processed (lookahead_size window_size : Z)
    (input : bytes) (st : Loop.state) :
  let self := init lookahead_size window_size in
  let W := Z.to_nat (LempelZiv.window_size self) in
  reachable self input st ->
  exists processed,
    input = processed ++ Loop.lookahead_buffer st ++ Loop.file st
    /\ Loop.window_buffer st = skipn (length processed - W) processed
    /\ (length (Loop.window_buffer st) <= W)%nat
    /\ decodes_to (Loop.bitarr st) [] processed.
Proof.
  intros self W Hreach.
  destruct (reachable_Inv _ _ _ _ Hreach) as (processed & Hin & Hwin & _ & Hdec).
  exists processed. split; [exact Hin|]. split; [exact Hwin|].
  split.
  - rewrite Hwin. unfold last_window. rewrite length_skipn. fold self W. lia.
  - rewrite <- (app_nil_r (Loop.bitarr st)). apply Hdec.
    apply decodes_to_stop. cbn. lia.
Qed.

(** The loop variables before the first iteration on 300 bytes ["a"]. *)
Lemma window_is_tail_of_processed_witness :
  exists processed,
    run_of_a = processed ++ Loop.lookahead_buffer run_of_a_initial
                         ++ Loop.file run_of_a_initial
    /\ decodes_to (Loop.bitarr run_of_a_initial) [] processed.
Proof.
  assert (Hreach : reachable default run_of_a run_of_a_initial).
  { apply reachable_initial; vm_compute; reflexivity. }
  destruct (window_is_tail_of_processed 20 100 run_of_a run_of_a_initial Hreach)
    as (processed & Hin & _ & _ & Hdec).
  exists processed. split; [exact Hin | exact Hdec].
Defined.
